(** * C6 CLASSIG pipeline: nested-span annotation codec and evaluator

    A shallow embedding of the span data model ([src/annotations.py]),
    the tree node class ([src/C6C/src/document.py]), the additive
    dictionary merge ([src/helper_functions.py]) and the antecedent
    evaluation ([src/evaluation.py]), with the properties of the
    specification stated and settled against these definitions.

    Conventions of the embedding:
    - Python exceptions are values of [exn]; every modelled function returns
      a [result].  A function that mutates objects is a state transformer
      over the [world] (the heap of span objects and the text printed so
      far) in the monad [M].
    - Span objects live in a heap and are named by their address, so that
      the stack of open spans of the decoder, the element lists and the
      parent links all alias the same objects, as in Python.
    - A token is an attribute dictionary ([gmap string string]); attribute
      texts are ASCII strings.
    - Recursive methods walk the heap with a depth budget of one more than
      the number of objects: an acyclic object graph is walked completely,
      a cyclic one ends in [RecursionError], as in Python. *)

From Stdlib Require Import ZArith QArith Qcanon String Ascii Bool Lia DecimalString.
From stdpp Require Import base strings numbers option gmap list.

Local Open Scope string_scope.
Local Open Scope list_scope.
Local Open Scope Z_scope.

(** ** Python results and exceptions *)

Module Py.

Inductive exn : Type :=
  | AttributeError
  | TypeError
  | ValueError
  | IndexError
  | KeyError
  | RecursionError
  | Dangling. (* an address outside the heap: no Python heap contains one *)

Inductive result (A : Type) : Type :=
  | Ok (a : A)
  | Raise (e : exn).
Arguments Ok {A} a.
Arguments Raise {A} e.

Definition rbind {A B} (m : result A) (k : A -> result B) : result B :=
  match m with
  | Ok a => k a
  | Raise e => Raise e
  end.

(** Values an index attribute can hold: [None], an [int], or the (empty)
    text copied from a token's [ID]. *)
Inductive pyidx : Type :=
  | INone
  | IInt (z : Z)
  | IStr (s : string).

(** [a <= b] and friends are defined between two ints only. *)
Definition py_le (a b : pyidx) : result bool :=
  match a, b with
  | IInt x, IInt y => Ok (x <=? y)
  | _, _ => Raise TypeError
  end.

Definition py_ge (a b : pyidx) : result bool :=
  match a, b with
  | IInt x, IInt y => Ok (x >=? y)
  | _, _ => Raise TypeError
  end.

Definition py_lt (a b : pyidx) : result bool :=
  match a, b with
  | IInt x, IInt y => Ok (x <? y)
  | _, _ => Raise TypeError
  end.

Definition py_gt (a b : pyidx) : result bool :=
  match a, b with
  | IInt x, IInt y => Ok (x >? y)
  | _, _ => Raise TypeError
  end.

(** *** Strings *)

(** [str.isspace] on ASCII. *)
Definition is_space (c : ascii) : bool :=
  let n := nat_of_ascii c in
  (((9 <=? n) && (n <=? 13)) || ((28 <=? n) && (n <=? 32)))%nat.

Fixpoint lstrip (s : string) : string :=
  match s with
  | EmptyString => EmptyString
  | String c r => if is_space c then lstrip r else s
  end.

Fixpoint rev_string (acc s : string) : string :=
  match s with
  | EmptyString => acc
  | String c r => rev_string (String c acc) r
  end.

(** [s.strip()] *)
Definition strip (s : string) : string :=
  rev_string "" (lstrip (rev_string "" (lstrip s))).

(** [s.split(sep)] for a one-character separator. *)
Fixpoint split_aux (sep : ascii) (cur : string) (s : string) : list string :=
  match s with
  | EmptyString => [rev_string "" cur]
  | String c r =>
      if Ascii.eqb c sep then rev_string "" cur :: split_aux sep "" r
      else split_aux sep (String c cur) r
  end.

Definition split (sep : ascii) (s : string) : list string := split_aux sep "" s.

(** [s.startswith(p)] *)
Definition startswith (p s : string) : bool := String.prefix p s.

(** [sep.join(l)] *)
Fixpoint join (sep : string) (l : list string) : string :=
  match l with
  | [] => ""
  | [x] => x
  | x :: r => x +:+ sep +:+ join sep r
  end.

(** [str(n)] for an int *)
Definition str_int (z : Z) : string := NilZero.string_of_int (Z.to_int z).

(** *** [int(s)] on a text: surrounding white space, an optional sign,
    decimal digits with single underscores between them; anything else is
    a [ValueError]. *)
Definition digit_of (c : ascii) : option Z :=
  let n := nat_of_ascii c in
  if ((48 <=? n) && (n <=? 57))%nat then Some (Z.of_nat n - 48) else None.

Fixpoint int_digits (acc : Z) (s : string) : option Z :=
  match s with
  | EmptyString => Some acc
  | String c r =>
      match digit_of c with
      | Some d => int_digits (10 * acc + d) r
      | None =>
          if Ascii.eqb c "_" then
            match r with
            | String c' r' =>
                match digit_of c' with
                | Some d => int_digits (10 * acc + d) r'
                | None => None
                end
            | EmptyString => None
            end
          else None
      end
  end.

Definition int_unsigned (s : string) : option Z :=
  match s with
  | String c r =>
      match digit_of c with
      | Some d => int_digits d r
      | None => None
      end
  | EmptyString => None
  end.

Definition parse_int (s : string) : option Z :=
  match strip s with
  | String "+" r => int_unsigned r
  | String "-" r => Z.opp <$> int_unsigned r
  | s' => int_unsigned s'
  end.

Definition int (s : string) : result Z :=
  match parse_int s with
  | Some z => Ok z
  | None => Raise ValueError
  end.

(** *** Lists *)

(** [l.insert(i, x)]: never fails; an index past either end is clamped. *)
Definition list_insert {A} (l : list A) (i : Z) (x : A) : list A :=
  let n := Z.of_nat (length l) in
  let j := if i <? 0 then Z.max 0 (n + i) else Z.min i n in
  take (Z.to_nat j) l ++ x :: drop (Z.to_nat j) l.

(** [l[i]] with negative indices counted from the end. *)
Definition list_index {A} (l : list A) (i : Z) : result A :=
  let n := Z.of_nat (length l) in
  let j := if i <? 0 then n + i else i in
  if (0 <=? j) && (j <? n) then
    match l !! Z.to_nat j with
    | Some x => Ok x
    | None => Raise IndexError
    end
  else Raise IndexError.

(** [l[i] = x] *)
Definition list_assign {A} (l : list A) (i : Z) (x : A) : result (list A) :=
  let n := Z.of_nat (length l) in
  let j := if i <? 0 then n + i else i in
  if (0 <=? j) && (j <? n) then Ok (<[Z.to_nat j := x]> l)
  else Raise IndexError.

End Py.

Export Py.


(** ** Tokens ([document.py], class [Token]) *)

(** A token is its attribute dictionary [__dict__]. *)
Abbreviation Token := (gmap string string).

(** [tok.__dict__.get(key, None)] is [tok !! key]; [tok.KEY] raises when
    the attribute is missing. *)
Definition attr (t : Token) (key : string) : result string :=
  match t !! key with
  | Some v => Ok v
  | None => Raise AttributeError
  end.

(** [tok.__dict__.get(key, default)] *)
Definition attr_get (t : Token) (key default : string) : string :=
  match t !! key with
  | Some v => v
  | None => default
  end.

(** ** The heap of span objects *)

Definition ref := nat.

(** An element of a span: a token or (the address of) another span. *)
Inductive elem : Type :=
  | ETok (t : Token)
  | ESpan (s : ref).

(** The attributes of a [Span] object.  [start] and [end_] are [None] as
    long as the attribute was never assigned (the constructor alone does
    not create them).  The last four fields are those of the subclass
    [Antecedent]; [distance] is the attribute created by [get_distance]. *)
Record SpanObj : Type := mkSpanObj {
  lab : string;
  parent : option ref;
  elems : list elem;
  start : option pyidx;
  end_ : option pyidx;
  heads : list Token;
  movElemID : option Z;
  movElem : option ref;
  distance : option Z
}.

Definition set_parent_field (p : option ref) (o : SpanObj) : SpanObj :=
  mkSpanObj (lab o) p (elems o) (start o) (end_ o)
            (heads o) (movElemID o) (movElem o) (distance o).
Definition set_elems_field (es : list elem) (o : SpanObj) : SpanObj :=
  mkSpanObj (lab o) (parent o) es (start o) (end_ o)
            (heads o) (movElemID o) (movElem o) (distance o).
Definition set_start_field (v : pyidx) (o : SpanObj) : SpanObj :=
  mkSpanObj (lab o) (parent o) (elems o) (Some v) (end_ o)
            (heads o) (movElemID o) (movElem o) (distance o).
Definition set_end_field (v : pyidx) (o : SpanObj) : SpanObj :=
  mkSpanObj (lab o) (parent o) (elems o) (start o) (Some v)
            (heads o) (movElemID o) (movElem o) (distance o).
Definition set_movElem_field (m : option ref) (o : SpanObj) : SpanObj :=
  mkSpanObj (lab o) (parent o) (elems o) (start o) (end_ o)
            (heads o) (movElemID o) m (distance o).
Definition set_distance_field (d : Z) (o : SpanObj) : SpanObj :=
  mkSpanObj (lab o) (parent o) (elems o) (start o) (end_ o)
            (heads o) (movElemID o) (movElem o) (Some d).

Record world : Type := mkWorld {
  heap : list SpanObj;
  stdout : list string
}.

Definition empty_world : world := mkWorld [] [].

(** ** The monad of mutating methods *)

Definition M (A : Type) : Type := world -> result (A * world).

Definition ret {A} (a : A) : M A := fun w => Ok (a, w).

Definition bind {A B} (m : M A) (k : A -> M B) : M B :=
  fun w =>
    match m w with
    | Ok (a, w') => k a w'
    | Raise e => Raise e
    end.

Definition raise {A} (e : exn) : M A := fun _ => Raise e.

Definition lift {A} (r : result A) : M A :=
  fun w =>
    match r with
    | Ok a => Ok (a, w)
    | Raise e => Raise e
    end.

Declare Scope py_scope.
Delimit Scope py_scope with py.
Notation "x <- m ;; k" := (bind m (fun x => k))
  (at level 100, m at next level, right associativity) : py_scope.
Notation "m ;; k" := (bind m (fun _ => k))
  (at level 100, right associativity) : py_scope.
Notation "x <~ r ;; k" := (rbind r (fun x => k))
  (at level 100, r at next level, right associativity) : py_scope.
Local Open Scope py_scope.

Definition get_obj (s : ref) : M SpanObj :=
  fun w =>
    match heap w !! s with
    | Some o => Ok (o, w)
    | None => Raise Dangling
    end.

Definition modify_obj (s : ref) (f : SpanObj -> SpanObj) : M unit :=
  fun w =>
    match heap w !! s with
    | Some o => Ok (tt, mkWorld (<[s := f o]> (heap w)) (stdout w))
    | None => Raise Dangling
    end.

Definition alloc (o : SpanObj) : M ref :=
  fun w => Ok (length (heap w), mkWorld (heap w ++ [o]) (stdout w)).

Definition print (line : string) : M unit :=
  fun w => Ok (tt, mkWorld (heap w) (stdout w ++ [line])).

Definition read_heap {A} (f : list SpanObj -> result A) : M A :=
  fun w => lift (f (heap w)) w.

Fixpoint for_each {A} (l : list A) (body : A -> M unit) : M unit :=
  match l with
  | [] => ret tt
  | x :: r => body x ;; for_each r body
  end.

Fixpoint rmap {A B} (f : A -> result B) (l : list A) : result (list B) :=
  match l with
  | [] => Ok []
  | x :: r => y <~ f x ;; ys <~ rmap f r ;; Ok (y :: ys)
  end.

(** The depth budget of a recursive walk over the heap [h]. *)
Definition depth (h : list SpanObj) : nat := S (length h).

(** ** Class [Span] ([annotations.py]) *)

Module Span.

(** [get_tokens]: the tokens of the span, including those of dominated
    spans, in order. *)
Fixpoint collect (rec : ref -> result (list Token)) (es : list elem)
  : result (list Token) :=
  match es with
  | [] => Ok []
  | ETok t :: r => ts <~ collect rec r ;; Ok (t :: ts)
  | ESpan c :: r => cs <~ rec c ;; ts <~ collect rec r ;; Ok (cs ++ ts)
  end.

Fixpoint get_tokens_rec (fuel : nat) (h : list SpanObj) (s : ref)
  : result (list Token) :=
  match fuel with
  | O => Raise RecursionError
  | S fuel' =>
      match h !! s with
      | None => Raise Dangling
      | Some o => collect (get_tokens_rec fuel' h) (elems o)
      end
  end.

Definition get_tokens (s : ref) : M (list Token) :=
  read_heap (fun h => get_tokens_rec (depth h) h s).

(** [set_parent] *)
Definition set_parent (s : ref) (parent_span : option ref) : M unit :=
  modify_obj s (set_parent_field parent_span).

(** The value assigned to [self.start] / [self.end] from the first / last
    token: its [ID] attribute, turned into a zero-based int when it is a
    non-empty text. *)
Definition index_of_token (t : Token) : result pyidx :=
  match t !! "ID" with
  | None => Ok INone
  | Some "" => Ok (IStr "")
  | Some id => z <~ int id ;; Ok (IInt (z - 1))
  end.

(** [update_start_index] *)
Fixpoint update_start_index_rec (fuel : nat) (s : ref) : M unit :=
  match fuel with
  | O => raise RecursionError
  | S fuel' =>
      o <- get_obj s ;;
      match elems o with
      | [] => modify_obj s (set_start_field INone)
      | _ :: _ =>
          tokens <- get_tokens s ;;
          match tokens with
          | t :: _ =>
              v <- lift (index_of_token t) ;; modify_obj s (set_start_field v)
          | [] => modify_obj s (set_start_field INone)
          end ;;
          for_each (elems o) (fun e =>
            match e with
            | ETok _ => ret tt
            | ESpan c => update_start_index_rec fuel' c
            end)
      end
  end.

Definition update_start_index (s : ref) : M unit :=
  fun w => update_start_index_rec (depth (heap w)) s w.

(** [update_end_index] *)
Fixpoint update_end_index_rec (fuel : nat) (s : ref) : M unit :=
  match fuel with
  | O => raise RecursionError
  | S fuel' =>
      o <- get_obj s ;;
      match elems o with
      | [] => modify_obj s (set_end_field INone)
      | _ :: _ =>
          tokens <- get_tokens s ;;
          match last tokens with
          | Some t =>
              v <- lift (index_of_token t) ;; modify_obj s (set_end_field v)
          | None => modify_obj s (set_end_field INone)
          end ;;
          for_each (elems o) (fun e =>
            match e with
            | ETok _ => ret tt
            | ESpan c => update_end_index_rec fuel' c
            end)
      end
  end.

Definition update_end_index (s : ref) : M unit :=
  fun w => update_end_index_rec (depth (heap w)) s w.

(** [set_elements] *)
Definition set_elements (s : ref) (elements : list elem) : M unit :=
  modify_obj s (set_elems_field []) ;;
  for_each elements (fun e =>
    match e with
    | ESpan c => set_parent c (Some s)
    | ETok _ => ret tt
    end ;;
    modify_obj s (fun o => set_elems_field (elems o ++ [e]) o)) ;;
  update_start_index s ;;
  update_end_index s.

(** [append_element] *)
Definition append_element (s : ref) (element : elem) : M unit :=
  o <- get_obj s ;;
  match elems o with
  | [] =>
      match element with
      | ESpan c => set_parent c (Some s)
      | ETok _ => ret tt
      end ;;
      set_elements s [element] ;;
      update_start_index s ;;
      update_start_index s
  | _ :: _ =>
      match element with
      | ESpan c => set_parent c (Some s)
      | ETok _ => ret tt
      end ;;
      modify_obj s (fun o => set_elems_field (elems o ++ [element]) o) ;;
      update_end_index s
  end.

(** The constructor [Span(label, elements, parent_span)]. *)
Definition new (label : string) (elements : list elem)
                    (parent_span : option ref) : M ref :=
  s <- alloc (mkSpanObj label parent_span [] None None [] None None None) ;;
  for_each elements (append_element s) ;;
  ret s.

(** [__str__]: the bracket form [[Label elements]]; a token prints its
    [FORM]. *)
Fixpoint str_rec (fuel : nat) (h : list SpanObj) (s : ref) : result string :=
  match fuel with
  | O => Raise RecursionError
  | S fuel' =>
      match h !! s with
      | None => Raise Dangling
      | Some o =>
          parts <~ rmap (fun e =>
                      match e with
                      | ETok t => Ok (attr_get t "FORM" "")
                      | ESpan c => str_rec fuel' h c
                      end) (elems o) ;;
          Ok ("[" +:+ lab o +:+ " " +:+ join " " parts +:+ "]")
      end
  end.

Definition str_elem (h : list SpanObj) (e : elem) : result string :=
  match e with
  | ETok t => Ok (attr_get t "FORM" "")
  | ESpan c => str_rec (depth h) h c
  end.

(** The line printed by [insert_element] for an index outside of the
    span. *)
Definition insert_error_line (h : list SpanObj) (s : ref) (index : Z)
                             (element : elem) : result string :=
  o <~ match h !! s with Some o => Ok o | None => Raise Dangling end ;;
  se <~ str_elem h element ;;
  ss <~ str_rec (depth h) h s ;;
  Ok ("Error: Cannot add element '" +:+ se +:+ "' at index "
      +:+ str_int index +:+ " of span '"
      +:+ str_int (Z.of_nat (length (elems o)))
      +:+ "' with length " +:+ ss +:+ ".").

(** [insert_element]; every path returns [None]. *)
Definition insert_element (s : ref) (index : Z) (element : elem) : M unit :=
  o <- get_obj s ;;
  let n := Z.of_nat (length (elems o)) in
  if index <? n then
    match element with
    | ESpan c => set_parent c (Some s)
    | ETok _ => ret tt
    end ;;
    modify_obj s (fun o => set_elems_field (list_insert (elems o) index element) o) ;;
    update_start_index s ;;
    update_end_index s
  else if index =? n then
    append_element s element ;;
    update_start_index s ;;
    update_end_index s
  else
    line <- read_heap (fun h => insert_error_line h s index element) ;;
    print line.

(** The index of the first token of [tokens] that is not tagged as
    punctuation (the loops of [get_start_index] and [get_end_index]). *)
Fixpoint first_word_index (tokens : list Token) : result pyidx :=
  match tokens with
  | [] => Ok INone
  | t :: r =>
      xpos <~ attr t "XPOS" ;;
      if startswith "$" xpos then first_word_index r
      else id <~ attr t "ID" ;; z <~ int id ;; Ok (IInt (z - 1))
  end.

(** [get_start_index(ignore_punct)] *)
Definition get_start_index (ignore_punct : bool) (s : ref) : M pyidx :=
  if ignore_punct then
    o <- get_obj s ;;
    match elems o with
    | [] => ret INone
    | _ :: _ =>
        tokens <- get_tokens s ;;
        lift (first_word_index tokens)
    end
  else
    o <- get_obj s ;;
    match start o with
    | None => raise AttributeError
    | Some INone =>
        update_start_index s ;;
        o' <- get_obj s ;;
        match start o' with
        | Some v => ret v
        | None => raise AttributeError
        end
    | Some v => ret v
    end.

(** [get_end_index(ignore_punct)] *)
Definition get_end_index (ignore_punct : bool) (s : ref) : M pyidx :=
  if ignore_punct then
    o <- get_obj s ;;
    match elems o with
    | [] => ret INone
    | _ :: _ =>
        tokens <- get_tokens s ;;
        lift (first_word_index (rev tokens))
    end
  else
    o <- get_obj s ;;
    match end_ o with
    | None => raise AttributeError
    | Some INone =>
        update_end_index s ;;
        o' <- get_obj s ;;
        match end_ o' with
        | Some v => ret v
        | None => raise AttributeError
        end
    | Some v => ret v
    end.

(** The test [start_s1 <= start_s2 and end_s1 >= end_s2]: the second
    comparison is evaluated only when the first one holds. *)
Definition included (start_s1 end_s1 start_s2 end_s2 : pyidx) : result bool :=
  b <~ py_le start_s1 start_s2 ;;
  if b then py_ge end_s1 end_s2 else Ok false.

(** [includes_span] *)
Definition includes_span (self span : ref) : M bool :=
  start_s1 <- get_start_index true self ;;
  end_s1 <- get_end_index true self ;;
  start_s2 <- get_start_index true span ;;
  end_s2 <- get_end_index true span ;;
  lift (included start_s1 end_s1 start_s2 end_s2).

(** [__len__]: the number of included tokens. *)
Fixpoint len_rec (fuel : nat) (h : list SpanObj) (s : ref) : result Z :=
  match fuel with
  | O => Raise RecursionError
  | S fuel' =>
      match h !! s with
      | None => Raise Dangling
      | Some o =>
          (fix loop (es : list elem) (l : Z) : result Z :=
             match es with
             | [] => Ok l
             | ETok _ :: r => loop r (l + 1)
             | ESpan c :: r => n <~ len_rec fuel' h c ;; loop r (l + n)
             end) (elems o) 0
      end
  end.

Definition len (s : ref) : M Z :=
  read_heap (fun h => len_rec (depth h) h s).

End Span.

(** ** The BIO codec of class [Span] *)

Module BIO.

(** The two variables of the decoding loop: the list of finished top-level
    spans and the stack of currently open spans (outermost first). *)
Definition dstate : Type := (list ref * list ref)%type.

(** [span_stack.pop()] on a non-empty stack *)
Definition pop (span_stack : list ref) : list ref :=
  take (Nat.pred (length span_stack)) span_stack.

(** The stack handling at a [B-] tag of level [i] in
    [Span.span_from_BIO_annotation]:
    [if i == 0 and span_stack: spans.append(span_stack.pop())]
    [else: while len(span_stack) > i: span_stack.pop()]. *)
Definition Span_B_stack (i : nat) (st : dstate) : dstate :=
  let '(spans, span_stack) := st in
  match i, last span_stack with
  | O, Some top => (spans ++ [top], pop span_stack)
  | _, _ => (spans, take i span_stack)
  end.

(** The same place in [MovElem.span_from_BIO_annotation]:
    [if i == 0 and span_stack: spans.append(span_stack[0]); span_stack = []]
    [else: while len(span_stack) > i: span_stack.pop()]. *)
Definition MovElem_B_stack (i : nat) (st : dstate) : dstate :=
  let '(spans, span_stack) := st in
  match i, span_stack with
  | O, root :: _ => (spans ++ [root], [])
  | _, _ => (spans, take i span_stack)
  end.

(** One annotation level [i] of a token with [n] levels. *)
Definition decode_level (tok : Token) (n : nat) (st : dstate) (i : nat)
                        (annotation : string) : M dstate :=
  if startswith "B-" annotation then
    let '(spans, span_stack) := Span_B_stack i st in
    label <- lift (list_index (split "-" annotation) 1) ;;
    p <- (if Z.of_nat i <? Z.of_nat n - 1
          then Span.new label [] None
          else Span.new label [ETok tok] None) ;;
    match last span_stack with
    | Some top =>
        Span.set_parent p (Some top) ;;
        Span.append_element top (ESpan p)
    | None => ret tt
    end ;;
    ret (spans, span_stack ++ [p])
  else if startswith "I-" annotation then
    match snd st !! i with
    | Some s => Span.append_element s (ETok tok) ;; ret st
    | None => raise IndexError
    end
  else ret st.

(** [for i, annotation in enumerate(annotations)] *)
Fixpoint decode_levels (tok : Token) (n : nat) (i : nat)
                       (annotations : list string) (st : dstate) : M dstate :=
  match annotations with
  | [] => ret st
  | annotation :: r =>
      st' <- decode_level tok n st i annotation ;;
      decode_levels tok n (S i) r st'
  end.

(** The body of the loop over the tokens. *)
Definition decode_token (annoname : string) (st : dstate) (tok : Token)
  : M dstate :=
  let '(spans, span_stack) := st in
  let a := attr_get tok annoname "O" in
  if String.eqb a "O" || String.eqb a "_" then
    match span_stack with
    | root :: _ => ret (spans ++ [root], [])
    | [] => ret (spans, [])
    end
  else
    let annotations := split "|" (strip a) in
    let span_stack := take (length annotations) span_stack in
    decode_levels tok (length annotations) 0 annotations (spans, span_stack).

Fixpoint decode_tokens (annoname : string) (tokens : list Token)
                       (st : dstate) : M dstate :=
  match tokens with
  | [] => ret st
  | tok :: r =>
      st' <- decode_token annoname st tok ;;
      decode_tokens annoname r st'
  end.

(** [Span.span_from_BIO_annotation(sentence, annoname)] *)
Definition span_from_BIO_annotation (sentence : list Token)
                                    (annoname : string) : M (list ref) :=
  st <- decode_tokens annoname sentence ([], []) ;;
  let '(spans, span_stack) := st in
  let spans := match span_stack with
               | root :: _ => spans ++ [root]
               | [] => spans
               end in
  for_each spans (fun span =>
    Span.update_start_index span ;; Span.update_end_index span) ;;
  ret spans.

(** *** Encoding *)

Definition bio_span : Type := (string * pyidx * pyidx)%type.

(** The inner function [get_bio_spans]. *)
Fixpoint get_bio_spans_rec (fuel : nat) (span : ref) : M (list bio_span) :=
  match fuel with
  | O => raise RecursionError
  | S fuel' =>
      Span.update_end_index span ;;
      Span.update_start_index span ;;
      o <- get_obj span ;;
      st <- Span.get_start_index false span ;;
      en <- Span.get_end_index false span ;;
      (fix walk (es : list elem) (acc : list bio_span) : M (list bio_span) :=
         match es with
         | [] => ret acc
         | ETok _ :: r => walk r acc
         | ESpan c :: r =>
             sub <- get_bio_spans_rec fuel' c ;;
             walk r (acc ++ sub)
         end) (elems o) [(lab o, st, en)]
  end.

Definition get_bio_spans (span : ref) : M (list bio_span) :=
  fun w => get_bio_spans_rec (depth (heap w)) span w.

(** The sort key [(l[1], 0 - l[2])]; the subtraction needs an int. *)
Definition sort_key (l : bio_span) : result (pyidx * Z) :=
  match snd l with
  | IInt e => Ok (snd (fst l), 0 - e)
  | _ => Raise TypeError
  end.

Definition pyidx_eqb (a b : pyidx) : bool :=
  match a, b with
  | INone, INone => true
  | IInt x, IInt y => x =? y
  | IStr s, IStr t => String.eqb s t
  | _, _ => false
  end.

(** [k1 < k2] on key tuples: the first components are compared with [<]
    only when they differ. *)
Definition key_lt (k1 k2 : pyidx * Z) : result bool :=
  if pyidx_eqb (fst k1) (fst k2) then Ok (snd k1 <? snd k2)
  else py_lt (fst k1) (fst k2).

(** [sorted(bio_spans, key=...)]: a stable sort that compares keys with
    [<] only; an element stays in front of the later elements that are not
    smaller than it. *)
Fixpoint insert_sorted (x : (pyidx * Z) * bio_span)
                       (l : list ((pyidx * Z) * bio_span))
  : result (list ((pyidx * Z) * bio_span)) :=
  match l with
  | [] => Ok [x]
  | y :: r =>
      b <~ key_lt (fst y) (fst x) ;;
      if b then r' <~ insert_sorted x r ;; Ok (y :: r')
      else Ok (x :: y :: r)
  end.

Fixpoint sort_keyed (l : list ((pyidx * Z) * bio_span))
  : result (list ((pyidx * Z) * bio_span)) :=
  match l with
  | [] => Ok []
  | x :: r => r' <~ sort_keyed r ;; insert_sorted x r'
  end.

Definition sorted (bio_spans : list bio_span) : result (list bio_span) :=
  keyed <~ rmap (fun l => k <~ sort_key l ;; Ok (k, l)) bio_spans ;;
  s <~ sort_keyed keyed ;;
  Ok (map snd s).

(** [bio_annotations[i] += ("|" if bio_annotations[i] else "") + tag] *)
Definition add_tag (bio_annotations : list string) (i : pyidx) (tag : string)
  : result (list string) :=
  match i with
  | IInt z =>
      cur <~ list_index bio_annotations z ;;
      list_assign bio_annotations z
        (if String.eqb cur "" then tag else cur +:+ "|" +:+ tag)
  | _ => Raise TypeError
  end.

(** [range(a, b)] *)
Definition range (a b : Z) : list Z :=
  map (fun k => a + Z.of_nat k) (seq 0 (Z.to_nat (b - a))).

Definition range_of (a b : pyidx) : result (list Z) :=
  match a, b with
  | IInt x, IInt y => Ok (range (x + 1) (y + 1))
  | _, _ => Raise TypeError
  end.

Fixpoint add_tags (bio_annotations : list string) (positions : list Z)
                  (tag : string) : result (list string) :=
  match positions with
  | [] => Ok bio_annotations
  | i :: r =>
      bio <~ add_tag bio_annotations (IInt i) tag ;;
      add_tags bio r tag
  end.

(** The tags of one span tuple. *)
Definition annotate_span (bio_annotations : list string) (span : bio_span)
  : result (list string) :=
  let '(label, st, en) := span in
  bio <~ add_tag bio_annotations st ("B-" +:+ label) ;;
  positions <~ range_of st en ;;
  add_tags bio positions ("I-" +:+ label).

Fixpoint annotate_spans (bio_annotations : list string)
                        (spans : list bio_span) : result (list string) :=
  match spans with
  | [] => Ok bio_annotations
  | span :: r =>
      bio <~ annotate_span bio_annotations span ;;
      annotate_spans bio r
  end.

Fixpoint annotate_objects (bio_annotations : list string)
                          (span_objs : list ref) : M (list string) :=
  match span_objs with
  | [] => ret bio_annotations
  | span_obj :: r =>
      bio_spans <- get_bio_spans span_obj ;;
      ordered <- lift (sorted bio_spans) ;;
      bio <- lift (annotate_spans bio_annotations ordered) ;;
      annotate_objects bio r
  end.

(** [Span.span_to_BIO_annotation(sentence, spanname, annoname)]; the spans
    stored under [spanname] are the argument [span_objs], the result is the
    token list of the modified sentence. *)
Definition span_to_BIO_annotation (sentence : list Token)
                                  (span_objs : list ref)
                                  (annoname : string) : M (list Token) :=
  bio <- annotate_objects (map (fun _ => "") sentence) span_objs ;;
  let bio := map (fun b => if String.eqb b "" then "O" else b) bio in
  ret (zip_with (fun tok b => <[annoname := b]> tok) sentence bio).

(** *** The shape of a span forest: labels, nesting and token membership
    (a token is named by its [ID]). *)

#[local] Unset Elimination Schemes.
Inductive shape : Type :=
  | ShTok (id : option string)
  | ShSpan (label : string) (parts : list shape).
#[local] Set Elimination Schemes.

Fixpoint shape_of (fuel : nat) (h : list SpanObj) (s : ref) : result shape :=
  match fuel with
  | O => Raise RecursionError
  | S fuel' =>
      match h !! s with
      | None => Raise Dangling
      | Some o =>
          parts <~ rmap (fun e =>
                      match e with
                      | ETok t => Ok (ShTok (t !! "ID"))
                      | ESpan c => shape_of fuel' h c
                      end) (elems o) ;;
          Ok (ShSpan (lab o) parts)
      end
  end.

Definition forest_shape (spans : list ref) : M (list shape) :=
  read_heap (fun h => rmap (shape_of (depth h) h) spans).

End BIO.

(** ** Class [Antecedent] ([annotations.py]) *)

Module Antecedent.

(** The filter of the list comprehension in [get_distance]:
    [int(tok.ID)-1 > a_end and int(tok.ID)-1 < m_start
     and not tok.XPOS.startswith("$")]. *)
Definition is_between (a_end m_start : pyidx) (tok : Token) : result bool :=
  id <~ attr tok "ID" ;;
  z <~ int id ;;
  after <~ py_gt (IInt (z - 1)) a_end ;;
  if after then
    before <~ py_lt (IInt (z - 1)) m_start ;;
    if before then
      xpos <~ attr tok "XPOS" ;;
      Ok (negb (startswith "$" xpos))
    else Ok false
  else Ok false.

Fixpoint between (a_end m_start : pyidx) (tokens : list Token)
  : result (list Token) :=
  match tokens with
  | [] => Ok []
  | tok :: r =>
      keep <~ is_between a_end m_start tok ;;
      rest <~ between a_end m_start r ;;
      Ok (if keep then tok :: rest else rest)
  end.

(** The part of [get_distance] after the two early returns. *)
Definition compute_distance (self m : ref) (sentence : list Token) : M (option Z) :=
  a_end <- Span.get_end_index true self ;;
  m_start <- Span.get_start_index true m ;;
  toks <- lift (between a_end m_start sentence) ;;
  let d := Z.of_nat (length toks) in
  modify_obj self (set_distance_field d) ;;
  ret (Some d).

(** [get_distance(sentence)]: [None] or an int.  The stored value is used
    when [self.__dict__.get("distance", None)] is true, that is, when the
    attribute exists and is not [0]. *)
Definition get_distance (self : ref) (sentence : list Token) : M (option Z) :=
  o <- get_obj self ;;
  match movElem o with
  | None => ret None
  | Some m =>
      match distance o with
      | Some d => if d =? 0 then compute_distance self m sentence
                  else ret (Some d)
      | None => compute_distance self m sentence
      end
  end.

(** [set_MovElem] *)
Definition set_MovElem (self : ref) (m : option ref) : M unit :=
  modify_obj self (set_movElem_field m).

End Antecedent.

(** ** Class [Tree] ([document.py])

    A node with its category, edge label, the [token] attribute of a
    terminal node (absent on other nodes) and its child nodes.  The
    [parent_node] back-reference is not part of the value: none of the
    methods below reads it. *)

Module Tree.

#[local] Unset Elimination Schemes.
Inductive Tree : Type :=
  | Node (category edge_label : string) (token : option Token)
         (children : list Tree).
#[local] Set Elimination Schemes.

Definition token (t : Tree) : option Token :=
  match t with Node _ _ tok _ => tok end.

Definition children (t : Tree) : list Tree :=
  match t with Node _ _ _ cs => cs end.

(** [terminals]: a node without children is its own terminal. *)
Fixpoint terminals (t : Tree) : list Tree :=
  match t with
  | Node _ _ _ [] => [t]
  | Node _ _ _ cs =>
      (fix walk (l : list Tree) : list Tree :=
         match l with
         | [] => []
         | c :: r => terminals c ++ walk r
         end) cs
  end.

(** [[t for t in terminals if "token" in t.__dict__
        and not t.token.XPOS.startswith("$")]] *)
Fixpoint no_punct_terminals (ts : list Tree) : result (list Tree) :=
  match ts with
  | [] => Ok []
  | t :: r =>
      match token t with
      | None => no_punct_terminals r
      | Some tok =>
          xpos <~ attr tok "XPOS" ;;
          rest <~ no_punct_terminals r ;;
          Ok (if startswith "$" xpos then rest else t :: rest)
      end
  end.

(** [try: return int(t.__dict__["token"].__dict__.get("ID", None))-1]
    [except ValueError: return None] *)
Definition index_of_terminal (t : Tree) : result pyidx :=
  match token t with
  | None => Raise KeyError
  | Some tok =>
      match tok !! "ID" with
      | None => Raise TypeError          (* int(None) *)
      | Some id =>
          match parse_int id with
          | Some z => Ok (IInt (z - 1))
          | None => Ok INone
          end
      end
  end.

(** The common body of [get_start_index] and [get_end_index]: [pick]
    chooses the first or the last node of a list. *)
Definition index_with (pick : list Tree -> option Tree) (ignore_punct : bool)
                      (self : Tree) : result pyidx :=
  let ts := terminals self in
  match pick ts with
  | None => Ok INone
  | Some t =>
      found <~ (if ignore_punct then
                  np <~ no_punct_terminals ts ;;
                  match pick np with
                  | Some n => v <~ index_of_terminal n ;; Ok (Some v)
                  | None => Ok None
                  end
                else Ok None) ;;
      match found with
      | Some v => Ok v
      | None =>
          match token t with
          | Some _ => index_of_terminal t
          | None => Ok INone
          end
      end
  end.

(** [get_start_index(ignore_punct)] *)
Definition get_start_index (ignore_punct : bool) (self : Tree) : result pyidx :=
  index_with head ignore_punct self.

(** [get_end_index(ignore_punct)] *)
Definition get_end_index (ignore_punct : bool) (self : Tree) : result pyidx :=
  index_with last ignore_punct self.

(** [insert_child(index, node)]: the new node and the returned flag.
    [list.insert] raises no [IndexError], so the [except] branch is never
    taken. *)
Definition insert_child (self : Tree) (index : Z) (node : Tree) : Tree * bool :=
  match self with
  | Node cat lbl tok cs => (Node cat lbl tok (list_insert cs index node), true)
  end.

(** [includes_span(span)]: [span] is a [Span] object. *)
Definition includes_span (self : Tree) (span : ref) : M bool :=
  start_s1 <- lift (get_start_index true self) ;;
  end_s1 <- lift (get_end_index true self) ;;
  start_s2 <- Span.get_start_index true span ;;
  end_s2 <- Span.get_end_index true span ;;
  lift (Span.included start_s1 end_s1 start_s2 end_s2).

(** [is_terminal()]: a node without child nodes. *)
Definition is_terminal (t : Tree) : bool :=
  match children t with
  | [] => true
  | _ :: _ => false
  end.

(** [__len__].  The test of the loop is [if child.is_terminal:], the
    method itself and not its result; a bound method is always true. *)
Definition method_is_true : bool := true.

Fixpoint len (t : Tree) : Z :=
  match t with
  | Node _ _ _ cs =>
      (fix loop (l : list Tree) (length : Z) : Z :=
         match l with
         | [] => length
         | child :: r =>
             if method_is_true then loop r (length + 1)
             else loop r (length + len child)
         end) cs 0
  end.

(** [add_child(node)] *)
Definition add_child (self node : Tree) : Tree :=
  match self with
  | Node cat lbl tok cs => Node cat lbl tok (cs ++ [node])
  end.

End Tree.

(** ** [add_dict] ([helper_functions.py])

    Python values as far as [add_dict] tells them apart.  Numbers ([int],
    [float], [bool]) are an abstract type [num] with its addition; a
    dictionary is the list of its items in insertion order; a set is the
    list of its members. *)

Inductive pykey : Type :=
  | KStr (s : string)
  | KInt (z : Z).

Global Instance pykey_eq_dec : EqDecision pykey.
Proof. solve_decision. Defined.

Section AddDict.

Context {num : Type} (num_add : num -> num -> num).

#[local] Unset Elimination Schemes.
Inductive pyval : Type :=
  | VNum (n : num)
  | VStr (s : string)
  | VNone
  | VList (l : list pyval)
  | VSet (s : list pykey)
  | VDict (d : list (pykey * pyval)).
#[local] Set Elimination Schemes.

(** [key in d] and [d[key]] *)
Fixpoint dict_get (key : pykey) (d : list (pykey * pyval)) : option pyval :=
  match d with
  | [] => None
  | (k, v) :: r => if decide (k = key) then Some v else dict_get key r
  end.

(** [d[key] = v]: an existing key keeps its place, a new key goes last. *)
Fixpoint dict_set (key : pykey) (v : pyval) (d : list (pykey * pyval))
  : list (pykey * pyval) :=
  match d with
  | [] => [(key, v)]
  | (k, x) :: r =>
      if decide (k = key) then (k, v) :: r else (k, x) :: dict_set key v r
  end.

(** [s.update(t)] on sets *)
Definition set_update (s t : list pykey) : list pykey :=
  fold_left (fun acc x => if decide (x ∈ acc) then acc else acc ++ [x]) t s.

(** The loop [for key, val in dict_to_add.items()], with the treatment of
    a key that is already in the base dictionary as a parameter. *)
Definition add_items (add_value : pyval -> pyval -> pyval)
  : list (pykey * pyval) -> list (pykey * pyval) -> list (pykey * pyval) :=
  fix loop (dict_to_add base_dict : list (pykey * pyval)) :=
    match dict_to_add with
    | [] => base_dict
    | (key, val) :: rest =>
        loop rest
          match dict_get key base_dict with
          | Some b => dict_set key (add_value val b) base_dict
          | None => dict_set key val base_dict       (* deepcopy(val) *)
          end
    end.

(** The new value of [base_dict[key]] for a key that is in both
    dictionaries: [val] is the value to add, [b] the value in the base.
    Where the source does nothing the value stays [b]. *)
Fixpoint add_value (val b : pyval) {struct val} : pyval :=
  match val, b with
  | VNum v, VNum x => VNum (num_add x v)
  | VList v, VList x => VList (x ++ v)
  | VSet v, VSet x => VSet (set_update x v)
  | VDict v, VDict x => VDict (add_items add_value v x)
  | _, _ => b
  end.

(** [add_dict(base_dict, dict_to_add)] *)
Definition add_dict (base_dict dict_to_add : list (pykey * pyval))
  : list (pykey * pyval) :=
  add_items add_value dict_to_add base_dict.

End AddDict.

Arguments pyval num : clear implicits.
Arguments VStr {num} s.
Arguments VNone {num}.
Arguments VSet {num} s.

(** ** Antecedent evaluation ([evaluation.py]) *)

Module Evaluation.

(** What [evaluate_antecedents] reads from an [Antecedent] object through
    its getters, all with [ignore_punct=True]:
    [a_start], [a_end]: [get_start_index], [get_end_index];
    [m_label]: the label of [get_MovElem()], [None] without a moving element;
    [m_start]: [get_MovElem().get_start_index] (read only when [m_label]
    is present);
    [a_distance]: [get_distance(sentence)];
    [a_heads]: the [ID] and [XPOS] of the tokens of [get_headToks()].
    The indices are ints: the interval comparison is defined on ints. *)
Record antecedent : Type := mkAntecedent {
  a_start : Z;
  a_end : Z;
  m_label : option string;
  m_start : Z;
  a_distance : Z;
  a_heads : list (string * string)
}.

(** One block of counts, [eval_dict[d]], and the blocks by distance. *)
Abbreviation bucket := (gmap string Z).
Abbreviation buckets := (gmap Z (gmap string Z)).

Definition zero_bucket : bucket :=
  list_to_map
    [("Correct", 0); ("BES", 0); ("BEL", 0); ("BEO", 0);
     ("BE", 0); ("FP", 0); ("IL", 0);
     ("FN", 0); ("BEright", 0);
     ("TP_Head_Correct", 0); ("FP_Head_Correct", 0); ("FN_Head_Correct", 0);
     ("TP_Head_Right", 0); ("FP_Head_Right", 0); ("FN_Head_Right", 0);
     ("TP_Head_All", 0); ("FP_Head_All", 0); ("FN_Head_All", 0)].

(** [evaldict[key]] *)
Definition count (evaldict : bucket) (key : string) : result Z :=
  match evaldict !! key with
  | Some c => Ok c
  | None => Raise KeyError
  end.

(** [eval_dict[d][key] += n] *)
Definition incr (d : Z) (key : string) (n : Z) (eval_dict : buckets)
  : result buckets :=
  match eval_dict !! d with
  | None => Raise KeyError
  | Some b =>
      c <~ count b key ;;
      Ok (<[d := <[key := c + n]> b]> eval_dict)
  end.

(** [{t.ID for t in a.get_headToks()}] *)
Definition head_tok_ids (a : antecedent) : gset string :=
  list_to_set (map fst (a_heads a)).

Definition interval (a : antecedent) : Z * Z := (a_start a, a_end a).
Definition link (a : antecedent) : Z * Z := (m_start a, m_start a).

(** [remove] of the first element that passes [p]. *)
Fixpoint remove_first {A} (p : A -> bool) (l : list A) : list A :=
  match l with
  | [] => []
  | x :: r => if p x then r else x :: remove_first p r
  end.

Section Evaluate.

(** [overlap_type] of the FairEval package: one of the texts ["TP"],
    ["BES"], ["BEL"], ["BEO"], or [False] (here [None]). *)
Variable overlap_type : Z * Z -> Z * Z -> option string.

(** The second conjunct of all three filters: the moving elements of the
    two antecedents start at overlapping places. *)
Definition same_element (ga ea : antecedent) : bool :=
  bool_decide (overlap_type (link ga) (link ea) ≠ None).

Definition is_TP (ga ea : antecedent) : bool :=
  bool_decide (overlap_type (interval ga) (interval ea) = Some "TP")
  && same_element ga ea.

Definition is_BE (ga ea : antecedent) : bool :=
  match overlap_type (interval ga) (interval ea) with
  | Some ot => bool_decide (ot ∈ ["BES"; "BEL"; "BEO"])
  | None => false
  end && same_element ga ea.

Definition is_IL (ga ea : antecedent) : bool :=
  bool_decide (overlap_type (interval ga) (interval ea) = None)
  && same_element ga ea.

(** The three updates of the head counts of one group. *)
Definition score_heads (group : string) (ga ea : antecedent)
                       (eval_dict : buckets) : result buckets :=
  let g := head_tok_ids ga in
  let e := head_tok_ids ea in
  let d := a_distance ga in
  e1 <~ incr d ("TP_Head_" +:+ group) (Z.of_nat (size (g ∩ e))) eval_dict ;;
  e2 <~ incr d ("FP_Head_" +:+ group) (Z.of_nat (size (e ∖ g))) e1 ;;
  incr d ("FN_Head_" +:+ group) (Z.of_nat (size (g ∖ e))) e2.

(** The bodies of [if ea_matches:] of the three matching loops. *)
Definition score_TP (ga ea : antecedent) (eval_dict : buckets)
  : result buckets :=
  e1 <~ incr (a_distance ga) "Correct" 1 eval_dict ;;
  e2 <~ score_heads "Correct" ga ea e1 ;;
  e3 <~ score_heads "Right" ga ea e2 ;;
  score_heads "All" ga ea e3.

Definition score_BE (ga ea : antecedent) (eval_dict : buckets)
  : result buckets :=
  match overlap_type (interval ga) (interval ea) with
  | None => Raise KeyError                      (* eval_dict[d][False] *)
  | Some ot =>
      e1 <~ incr (a_distance ga) ot 1 eval_dict ;;
      e2 <~ (if a_end ga =? a_end ea then
               e' <~ incr (a_distance ga) "BEright" 1 e1 ;;
               score_heads "Right" ga ea e'
             else Ok e1) ;;
      score_heads "All" ga ea e2
  end.

Definition score_IL (ga ea : antecedent) (eval_dict : buckets)
  : result buckets :=
  e1 <~ incr (a_distance ga) "IL" 1 eval_dict ;;
  score_heads "All" ga ea e1.

(** One matching loop, [for ga in g_antecs: ...], followed by
    [for m in matched: g_antecs.remove(m)]: the result is the list of the
    gold antecedents left, the system antecedents left and the counts. *)
Fixpoint match_loop (matches : antecedent -> antecedent -> bool)
                    (score : antecedent -> antecedent -> buckets -> result buckets)
                    (g_antecs e_antecs : list antecedent) (eval_dict : buckets)
  : result (list antecedent * list antecedent * buckets) :=
  match g_antecs with
  | [] => Ok ([], e_antecs, eval_dict)
  | ga :: r =>
      match filter (fun ea => matches ga ea = true) e_antecs with
      | ea0 :: _ =>
          e1 <~ score ga ea0 eval_dict ;;
          match_loop matches score r (remove_first (matches ga) e_antecs) e1
      | [] =>
          res <~ match_loop matches score r e_antecs eval_dict ;;
          let '(g_left, e_left, e') := res in
          Ok (ga :: g_left, e_left, e')
      end
  end.

(** [eval_dict[d]["BE"] += BES + BEL + BEO] for every distance. *)
Definition sum_fuzzy (b : bucket) : result bucket :=
  be <~ count b "BE" ;;
  bes <~ count b "BES" ;;
  bel <~ count b "BEL" ;;
  beo <~ count b "BEO" ;;
  Ok (<["BE" := be + (bes + bel + beo)]> b).

Fixpoint count_rest (key head_key : string) (rest : list antecedent)
                    (eval_dict : buckets) : result buckets :=
  match rest with
  | [] => Ok eval_dict
  | a :: r =>
      e1 <~ incr (a_distance a) head_key
                 (Z.of_nat (size (head_tok_ids a))) eval_dict ;;
      e2 <~ incr (a_distance a) key 1 e1 ;;
      count_rest key head_key r e2
  end.

(** The heads of an antecedent are all verbs. *)
Definition all_verbs (a : antecedent) : bool :=
  forallb (fun h => startswith "V" (snd h)) (a_heads a).

Record evaluation : Type := mkEvaluation {
  by_distance : buckets;
  overall : bucket
}.

(** [evaluate_antecedents(goldsent, evalsent)], on the antecedents of the
    two sentences. *)
Definition evaluate_antecedents (gold_antecedents eval_antecedents : list antecedent)
  : result evaluation :=
  let g_antecs :=
    filter (fun a => m_label a = Some "RELC" ∧ all_verbs a = false)
           gold_antecedents in
  let e_antecs := filter (fun e => m_label e = Some "RELC") eval_antecedents in
  let distances : gset Z :=
    list_to_set (map a_distance g_antecs) ∪ list_to_set (map a_distance e_antecs) in
  let eval_dict : buckets := gset_to_gmap zero_bucket distances in
  s1 <~ match_loop is_TP score_TP g_antecs e_antecs eval_dict ;;
  let '(g1, e1, d1) := s1 in
  s2 <~ match_loop is_BE score_BE g1 e1 d1 ;;
  let '(g2, e2, d2) := s2 in
  l3 <~ rmap (fun kb => b <~ sum_fuzzy (snd kb) ;; Ok (fst kb, b))
             (map_to_list d2) ;;
  let d3 : buckets := list_to_map l3 in
  s4 <~ match_loop is_IL score_IL g2 e2 d3 ;;
  let '(g4, e4, d4) := s4 in
  d5 <~ count_rest "FN" "FN_Head_All" g4 d4 ;;
  d6 <~ count_rest "FP" "FP_Head_All" e4 d5 ;;
  (* add_dict(eval_dict["overall"], eval_dict[d]) for every distance: the
     counts of equal keys are summed *)
  let total : bucket :=
    map_fold (fun _ b acc => union_with (fun x y => Some (x + y)) acc b) ∅ d6 in
  Ok (mkEvaluation d6 (if decide (total = ∅) then zero_bucket else total)).

End Evaluate.

(** The dictionary [fair_eval_dict] that [calculate_metrics_antecedent]
    builds from a block of counts and hands to the precision and recall
    of FairEval.  The products with [0.5] are exact. *)
Definition fair_eval_dict (evaldict : bucket) : result (gmap string Qc) :=
  be <~ count evaldict "BE" ;;
  correct <~ count evaldict "Correct" ;;
  fp <~ count evaldict "FP" ;;
  il <~ count evaldict "IL" ;;
  fn <~ count evaldict "FN" ;;
  Ok (<["FN" := (Qc_of_Z fn + Q2Qc (Qmake 1 2) * Qc_of_Z il)%Qc]>
      (<["FP" := (Qc_of_Z fp + Q2Qc (Qmake 1 2) * Qc_of_Z il)%Qc]>
      (<["TP" := Qc_of_Z correct]>
      (<["BE" := Qc_of_Z be]> ∅)))).

(** Modelled from the spec: [overlap_type] of the FairEval package, which
    [evaluation.py] imports and which is not among the source files.  The
    spec (4.4): TP for identical start and end; BES when the system span is
    strictly shorter and nested inside the gold span; BEL when it is
    strictly longer and contains the gold span; BEO when the two overlap
    and neither contains the other; no overlap for disjoint intervals. *)
Definition FairEval_overlap_type (gold system : Z * Z) : option string :=
  let '(gs, ge) := gold in
  let '(ss, se) := system in
  if (gs =? ss) && (ge =? se) then Some "TP"
  else if (se <? gs) || (ge <? ss) then None
  else if (gs <=? ss) && (se <=? ge) then Some "BES"
  else if (ss <=? gs) && (ge <=? se) then Some "BEL"
  else Some "BEO".

End Evaluation.

(** ** Vocabulary of the statements *)

(** A token tagged as punctuation: its [XPOS] starts with ["$"]. *)
Definition is_punct (t : Token) : Prop :=
  exists xpos, t !! "XPOS" = Some xpos /\ startswith "$" xpos = true.

(** A token with an [ID] that [int] accepts and with an [XPOS]. *)
Definition well_formed_token (t : Token) : Prop :=
  exists id z xpos,
    t !! "ID" = Some id /\ parse_int id = Some z /\ t !! "XPOS" = Some xpos.

(** A token that is not punctuation and whose zero-based position lies
    strictly between [a] and [b]. *)
Definition word_between (a b : Z) (tok : Token) : bool :=
  match tok !! "ID", tok !! "XPOS" with
  | Some id, Some xpos =>
      match parse_int id with
      | Some z => (a <? z - 1) && (z - 1 <? b) && negb (startswith "$" xpos)
      | None => false
      end
  | _, _ => false
  end.

(** Two heaps that hold, address by address, objects with the same
    elements; and two worlds whose objects differ at most in the cached
    indices [start] and [end_]. *)
Definition same_elems (h h' : list SpanObj) : Prop :=
  Forall2 (fun o o' => elems o = elems o') h h'.

Definition same_but_indices (o o' : SpanObj) : Prop :=
  lab o = lab o' /\ parent o = parent o' /\ elems o = elems o' /\
  heads o = heads o' /\ movElemID o = movElemID o' /\
  movElem o = movElem o' /\ distance o = distance o'.

Definition frame (w w' : world) : Prop :=
  Forall2 same_but_indices (heap w) (heap w') /\ stdout w = stdout w'.

(** A dictionary whose values are all numbers. *)
Definition numeric {num : Type} (d : list (pykey * pyval num)) : Prop :=
  Forall (fun kv => exists n, snd kv = VNum n) d.

(** The object at address [j] after the element [e] was put into the span
    at address [s], its elements rearranged by [place]: a span element
    gets [s] as its parent; cached indices aside. *)
Definition with_parent (s : ref) (e : elem) (j : ref) (o : SpanObj) : SpanObj :=
  match e with
  | ESpan c => if decide (c = j) then set_parent_field (Some s) o else o
  | ETok _ => o
  end.

Definition with_element (place : list elem -> list elem) (s : ref) (e : elem)
                        (j : ref) (o : SpanObj) : SpanObj :=
  let o1 := with_parent s e j o in
  if decide (j = s) then set_elems_field (place (elems o1)) o1 else o1.

(** Two worlds related address by address through [F]. *)
Definition pointwise (F : ref -> SpanObj -> SpanObj) (w w' : world) : Prop :=
  stdout w' = stdout w /\
  forall j, heap w' !! j = F j <$> heap w !! j.

(** A block of counts with every key of the zero block; and counts by
    distance that hold a complete block for exactly the distances [D]. *)
Definition complete (b : Evaluation.bucket) : Prop :=
  dom b = dom Evaluation.zero_bucket.

Definition complete_for (D : gset Z) (eval_dict : Evaluation.buckets) : Prop :=
  dom eval_dict = D /\ forall d b, eval_dict !! d = Some b -> complete b.

(** A terminal node that carries a well-formed token. *)
Definition well_formed_terminal (n : Tree.Tree) : Prop :=
  exists tok, Tree.token n = Some tok /\ well_formed_token tok.

(** ** Inputs of the examples *)

Definition mk_token (id form xpos : string) : Token :=
  <["ID" := id]> (<["FORM" := form]> (<["XPOS" := xpos]> ∅)).

(** A token of a sentence annotated in the column ["chunks"]. *)
Definition tagged (id tag : string) : Token :=
  <["chunks" := tag]> (mk_token id "w" "NN").

(** The result of a computation started in the empty world. *)
Definition run {A} (m : M A) : result A :=
  match m empty_world with
  | Ok (a, _) => Ok a
  | Raise e => Raise e
  end.

(** The value of an outcome, without the world. *)
Definition value_of {A} (r : result (A * world)) : result A :=
  match r with
  | Ok (a, _) => Ok a
  | Raise e => Raise e
  end.

(** The world after a computation started in the empty world. *)
Definition world_after {A} (m : M A) : world :=
  match m empty_world with
  | Ok (_, w) => w
  | Raise _ => empty_world
  end.

(** A span whose only token is a full stop, and the same as a tree. *)
Definition full_stop : Token := mk_token "1" "." "$.".
Definition punct_span_world : world :=
  world_after (Span.new "X" [ETok full_stop] None).
Definition punct_tree : Tree.Tree := Tree.Node "$." "--" (Some full_stop) [].
Definition bare_tree : Tree.Tree := Tree.Node "NP" "--" None [].

(** A noun phrase of two tokens, and a third token to insert. *)
Definition two_token_world : world :=
  world_after (Span.new "NP" [ETok (mk_token "1" "a" "ART");
                              ETok (mk_token "2" "b" "NN")] None).
Definition third_token : Token := mk_token "3" "c" "NN".

(** A noun phrase of two words (address 0), a span that holds only a
    comma (address 1), and the noun phrase as a tree. *)
Definition comma : Token := mk_token "3" "," "$,".
Definition phrase_and_comma_world : world :=
  world_after (Span.new "NP" [ETok (mk_token "1" "a" "ART");
                              ETok (mk_token "2" "b" "NN")] None ;;
               Span.new "X" [ETok comma] None)%py.
Definition phrase_tree : Tree.Tree :=
  Tree.Node "NP" "--" None
    [Tree.Node "ART" "--" (Some (mk_token "1" "a" "ART")) [];
     Tree.Node "NN" "--" (Some (mk_token "2" "b" "NN")) []].

(** A sentence of five tokens; an antecedent over its first token
    (address 0) linked to a relative clause over its last token
    (address 1).  In [distance_world] the distance has been asked for once
    and the antecedent has then been extended by two tokens. *)
Definition five_tokens : list Token :=
  [mk_token "1" "a" "NN"; mk_token "2" "," "$,"; mk_token "3" "b" "NN";
   mk_token "4" "c" "NN"; mk_token "5" "d" "NN"].

Definition linked_world : world :=
  world_after (a <- Span.new "Antec" [ETok (mk_token "1" "a" "NN")] None ;;
               m <- Span.new "RELC" [ETok (mk_token "5" "d" "NN")] None ;;
               Antecedent.set_MovElem a (Some m))%py.

Definition distance_world : world :=
  match (Antecedent.get_distance 0%nat five_tokens ;;
         Span.append_element 0%nat (ETok (mk_token "2" "," "$,")) ;;
         Span.append_element 0%nat (ETok (mk_token "3" "b" "NN")))%py
        linked_world with
  | Ok (_, w) => w
  | Raise _ => empty_world
  end.

(** The dictionaries of the docstring of [add_dict], with [int] numbers. *)
Definition doc_base : list (pykey * pyval Z) :=
  [(KStr "A", VNum 1);
   (KStr "B", VDict [(KStr "c", VNum 2); (KStr "d", VNum 3)]);
   (KStr "C", VList [VNum 1; VNum 2; VNum 3])].
Definition doc_add : list (pykey * pyval Z) :=
  [(KStr "A", VNum 1);
   (KStr "B", VDict [(KStr "c", VNum 1); (KStr "e", VNum 1)]);
   (KStr "C", VList [VNum 4]);
   (KStr "D", VNum 2)].
Definition doc_result : list (pykey * pyval Z) :=
  [(KStr "A", VNum 2);
   (KStr "B", VDict [(KStr "c", VNum 3); (KStr "d", VNum 3); (KStr "e", VNum 1)]);
   (KStr "C", VList [VNum 1; VNum 2; VNum 3; VNum 4]);
   (KStr "D", VNum 2)].

(** Scenario E: a gold antecedent at [2,3] and a system antecedent at
    [9,10], both linked to a relative clause that starts at index 5. *)
Definition gold_antecedent : Evaluation.antecedent :=
  Evaluation.mkAntecedent 2 3 (Some "RELC") 5 1 [("3", "NN")].
Definition system_antecedent : Evaluation.antecedent :=
  Evaluation.mkAntecedent 9 10 (Some "RELC") 5 0 [("10", "NN")].
Definition scenario_counts : gmap Z (gmap string Z) :=
  <[1 := Evaluation.zero_bucket]> (<[0 := Evaluation.zero_bucket]> ∅).


(** Encoding a forest into the column [annoname] of a sentence and
    decoding the column again; the result holds the tags, the shape of the
    forest and the shape of the decoded forest. *)
Definition round_trip (sentence : list Token) (forest : M (list ref))
                      (annoname : string)
  : M (list string * list BIO.shape * list BIO.shape) :=
  (spans <- forest ;;
   before <- BIO.forest_shape spans ;;
   annotated <- BIO.span_to_BIO_annotation sentence spans annoname ;;
   decoded <- BIO.span_from_BIO_annotation annotated annoname ;;
   after <- BIO.forest_shape decoded ;;
   ret (map (fun t => attr_get t annoname "O") annotated, before, after))%py.

(** The shapes of the spans decoded from the column ["chunks"]. *)
Definition decoded_shape (sentence : list Token) : result (list BIO.shape) :=
  run (spans <- BIO.span_from_BIO_annotation sentence "chunks" ;;
       BIO.forest_shape spans)%py.

(** A sentence of three words and forests over it: a noun phrase over the
    first two words whose second word is a phrase of its own; and two
    phrases side by side. *)
Definition three_words : list Token :=
  [mk_token "1" "a" "ART"; mk_token "2" "b" "NN"; mk_token "3" "c" "NN"].

Definition nested_forest : M (list ref) :=
  (pp <- Span.new "PP" [ETok (mk_token "2" "b" "NN")] None ;;
   np <- Span.new "NP" [ETok (mk_token "1" "a" "ART"); ESpan pp] None ;;
   ret [np])%py.

Definition flat_forest : M (list ref) :=
  (np <- Span.new "NP" [ETok (mk_token "1" "a" "ART");
                        ETok (mk_token "2" "b" "NN")] None ;;
   pp <- Span.new "PP" [ETok (mk_token "3" "c" "NN")] None ;;
   ret [np; pp])%py.

(** A span over a token whose [ID] has a suffix, and the token as a
    terminal node. *)
Definition suffixed_token : Token := mk_token "3-1" "x" "NN".
Definition suffixed_world : world :=
  mkWorld [mkSpanObj "NP" None [ETok suffixed_token] None None [] None None None] [].
Definition suffixed_tree : Tree.Tree :=
  Tree.Node "NN" "--" (Some suffixed_token) [].

(** The noun phrase of two tokens after a third token was appended. *)
Definition appended_world : world :=
  match Span.append_element 0%nat (ETok third_token) two_token_world with
  | Ok (_, w) => w
  | Raise _ => empty_world
  end.

(** The noun phrase of two tokens after a third token was inserted at
    index [-1]. *)
Definition inserted_world : world :=
  match Span.insert_element 0%nat (-1) (ETok third_token) two_token_world with
  | Ok (_, w) => w
  | Raise _ => empty_world
  end.
(** * Properties *)

(** ** Sanity checks of the Python primitives *)

Example int_examples :
  int "12" = Ok 12 /\ int " 7 " = Ok 7 /\ int "3-1" = Raise ValueError /\
  int "" = Raise ValueError /\ int "-4" = Ok (-4) /\ int "1_0" = Ok 10 /\
  int "_1" = Raise ValueError.
Proof. repeat split; reflexivity. Qed.

Example split_examples :
  split "|" "I-NF|I-MF|B-LK" = ["I-NF"; "I-MF"; "B-LK"] /\
  split "-" "B-" = ["B"; ""] /\ split "|" "" = [""] /\
  strip "  B-NP " = "B-NP" /\ join " " ["a"; "b"; "c"] = "a b c" /\
  str_int 12 = "12" /\ str_int (-3) = "-3" /\ str_int 0 = "0".
Proof. repeat split; reflexivity. Qed.

Example list_insert_examples :
  list_insert [1; 2; 3] 1 9 = [1; 9; 2; 3] /\
  list_insert [1; 2; 3] 7 9 = [1; 2; 3; 9] /\
  list_insert [1; 2; 3] (-1) 9 = [1; 2; 9; 3] /\
  list_insert [1; 2; 3] (-7) 9 = [9; 1; 2; 3].
Proof. repeat split; reflexivity. Qed.

(** ** Reasoning about the monad *)

Local Open Scope py_scope.

Ltac unfold_M :=
  unfold bind, ret, raise, lift, get_obj, modify_obj, alloc, print, read_heap in *.

Lemma lookup_fresh (h : list SpanObj) (o : SpanObj) :
  (h ++ [o]) !! length h = Some o.
Proof. by rewrite list_lookup_middle. Qed.

(** The constructor applied to no elements only allocates the object. *)
Lemma Span_new_empty (label : string) (parent_span : option ref) (w : world) :
  Span.new label [] parent_span w =
  Ok (length (heap w),
      mkWorld (heap w ++ [mkSpanObj label parent_span [] None None [] None None None])
              (stdout w)).
Proof. reflexivity. Qed.

(** ** Index access on an empty span *)

(** C10. A span constructed with an empty element list has no [start] and
    no [end] attribute: [get_start_index()] and [get_end_index()] with the
    default [ignore_punct=False] raise [AttributeError], and the same calls
    with [ignore_punct=True] return [None] and leave the heap as it is. *)
Theorem empty_span_index_access (w : world) (label : string)
                                (parent_span : option ref) :
  exists s w',
    Span.new label [] parent_span w = Ok (s, w') /\
    Span.get_start_index false s w' = Raise AttributeError /\
    Span.get_end_index false s w' = Raise AttributeError /\
    Span.get_start_index true s w' = Ok (INone, w') /\
    Span.get_end_index true s w' = Ok (INone, w').
Proof.
  eexists _, _. split; [apply Span_new_empty|].
  unfold Span.get_start_index, Span.get_end_index. unfold_M. simpl.
  rewrite lookup_fresh. simpl. auto.
Qed.

(** ** Indices without punctuation *)

Lemma get_tokens_lookup (s : ref) (w w' : world) (tokens : list Token) :
  Span.get_tokens s w = Ok (tokens, w') ->
  w' = w /\ exists o, heap w !! s = Some o /\
                      (elems o = [] -> tokens = []).
Proof.
  unfold Span.get_tokens, depth. unfold_M. simpl.
  destruct (heap w !! s) as [o|] eqn:Ho; [|discriminate].
  destruct (Span.collect _ (elems o)) as [ts|] eqn:Hc; [|discriminate].
  intros [= <- <-]. split; [done|]. exists o. split; [done|].
  intros He. rewrite He in Hc. simpl in Hc. congruence.
Qed.

Lemma first_word_index_punct (tokens : list Token) :
  Forall is_punct tokens -> Span.first_word_index tokens = Ok INone.
Proof.
  induction 1 as [|t r (xpos & Hx & Hp) _ IH]; [done|].
  simpl. unfold attr. rewrite Hx. simpl. by rewrite Hp.
Qed.

Lemma Span_index_punct (s : ref) (w : world) (tokens : list Token) :
  Span.get_tokens s w = Ok (tokens, w) ->
  Forall is_punct tokens ->
  Span.get_start_index true s w = Ok (INone, w) /\
  Span.get_end_index true s w = Ok (INone, w).
Proof.
  intros Ht Hp.
  destruct (get_tokens_lookup _ _ _ _ Ht) as (_ & o & Ho & _).
  unfold Span.get_start_index, Span.get_end_index, bind, get_obj.
  rewrite Ho. destruct (elems o); [done|].
  rewrite Ht. unfold lift.
  rewrite (first_word_index_punct tokens Hp).
  rewrite (first_word_index_punct (rev tokens)); [done|].
  by apply Forall_rev.
Qed.

Lemma Tree_index_fallback (t : Tree.Tree) :
  Tree.no_punct_terminals (Tree.terminals t) = Ok [] ->
  Tree.get_start_index true t = Tree.get_start_index false t /\
  Tree.get_end_index true t = Tree.get_end_index false t.
Proof.
  intros H. unfold Tree.get_start_index, Tree.get_end_index, Tree.index_with.
  rewrite H. simpl. done.
Qed.

Lemma no_punct_terminals_no_token (ts : list Tree.Tree) :
  Forall (fun n => Tree.token n = None) ts ->
  Tree.no_punct_terminals ts = Ok [].
Proof.
  induction 1 as [|n r Hn _ IH]; [done|]. simpl. by rewrite Hn.
Qed.

Lemma Tree_index_no_token (t : Tree.Tree) :
  Forall (fun n => Tree.token n = None) (Tree.terminals t) ->
  Tree.get_start_index true t = Ok INone /\
  Tree.get_end_index true t = Ok INone.
Proof.
  intros H.
  destruct (Tree_index_fallback t (no_punct_terminals_no_token _ H)) as [-> ->].
  unfold Tree.get_start_index, Tree.get_end_index, Tree.index_with. simpl.
  split.
  - destruct (Tree.terminals t) as [|n r]; [done|]. simpl.
    apply Forall_cons in H as [-> _]. done.
  - destruct (last (Tree.terminals t)) as [n|] eqn:Hl; [|done].
    apply last_Some in Hl as [l' Hl]. rewrite Hl in H.
    apply Forall_app in H as [_ H]. apply Forall_cons in H as [-> _]. done.
Qed.

(** C4 (as amended).  When every token of a span is tagged as punctuation
    (in particular when it has no token), [Span.get_start_index] and
    [Span.get_end_index] with [ignore_punct=True] return [None]: class
    [Span] has no fallback.  [Tree.get_start_index] and
    [Tree.get_end_index] fall back to the result with punctuation when no
    terminal is left without punctuation, and return [None] when no
    terminal carries a token. *)
Theorem punctuation_only_index :
  (forall (s : ref) (w : world) (tokens : list Token),
     Span.get_tokens s w = Ok (tokens, w) ->
     Forall is_punct tokens ->
     Span.get_start_index true s w = Ok (INone, w) /\
     Span.get_end_index true s w = Ok (INone, w)) /\
  (forall t : Tree.Tree,
     Tree.no_punct_terminals (Tree.terminals t) = Ok [] ->
     Tree.get_start_index true t = Tree.get_start_index false t /\
     Tree.get_end_index true t = Tree.get_end_index false t) /\
  (forall t : Tree.Tree,
     Forall (fun n => Tree.token n = None) (Tree.terminals t) ->
     Tree.get_start_index true t = Ok INone /\
     Tree.get_end_index true t = Ok INone).
Proof.
  split; [exact Span_index_punct|].
  split; [exact Tree_index_fallback|exact Tree_index_no_token].
Qed.

Lemma punctuation_only_index_witness :
  (Span.get_start_index true 0%nat punct_span_world = Ok (INone, punct_span_world) /\
   Span.get_end_index true 0%nat punct_span_world = Ok (INone, punct_span_world)) /\
  (Tree.get_start_index true punct_tree = Tree.get_start_index false punct_tree /\
   Tree.get_end_index true punct_tree = Tree.get_end_index false punct_tree) /\
  (Tree.get_start_index true bare_tree = Ok INone /\
   Tree.get_end_index true bare_tree = Ok INone).
Proof.
  destruct punctuation_only_index as (HS & HT & HN).
  split; [|split].
  - apply (HS 0%nat punct_span_world [full_stop]).
    + vm_compute. reflexivity.
    + constructor; [|constructor]. exists "$.". split; vm_compute; reflexivity.
  - apply (HT punct_tree). vm_compute. reflexivity.
  - apply (HN bare_tree). constructor; [reflexivity|constructor].
Defined.

(** C4, the claim as stated fails on class [Span]: the only token of the
    span is punctuation, the index with punctuation is [0], and the index
    without punctuation is [None], not [0]. *)
Lemma punctuation_fallback_counterexample :
  Span.get_tokens 0%nat punct_span_world = Ok ([full_stop], punct_span_world) /\
  is_punct full_stop /\
  Span.get_start_index false 0%nat punct_span_world = Ok (IInt 0, punct_span_world) /\
  Span.get_end_index false 0%nat punct_span_world = Ok (IInt 0, punct_span_world) /\
  Span.get_start_index true 0%nat punct_span_world = Ok (INone, punct_span_world) /\
  Span.get_end_index true 0%nat punct_span_world = Ok (INone, punct_span_world).
Proof.
  repeat split; try (vm_compute; reflexivity).
  exists "$.". split; vm_compute; reflexivity.
Qed.

(** ** Insertion outside of a span *)

Lemma rmap_raise {A B} (f : A -> result B) (l : list A) (e : exn) :
  rmap f l = Raise e -> exists x, x ∈ l /\ f x = Raise e.
Proof.
  induction l as [|x r IH]; simpl; [discriminate|].
  destruct (f x) as [y|e'] eqn:Hx; simpl.
  - destruct (rmap f r) as [ys|e'']; simpl; [discriminate|].
    intros [= ->]. destruct IH as (x' & Hin & Hx'); [done|].
    exists x'. split; [by apply list_elem_of_further|done].
  - intros [= ->]. exists x. split; [apply list_elem_of_here|done].
Qed.

(** Printing a span raises nothing but the two walk errors. *)
Lemma str_rec_raise (fuel : nat) (h : list SpanObj) (s : ref) (e : exn) :
  Span.str_rec fuel h s = Raise e -> e = RecursionError \/ e = Dangling.
Proof.
  revert s. induction fuel as [|fuel IH]; intros s; simpl.
  - intros [= <-]. by left.
  - destruct (h !! s) as [o|]; [|intros [= <-]; by right].
    destruct (rmap _ (elems o)) as [parts|e'] eqn:Hr; simpl; [discriminate|].
    intros [= ->]. apply rmap_raise in Hr as (x & _ & Hx).
    destruct x as [t|c]; [discriminate|]. by apply (IH c).
Qed.

Lemma insert_error_line_raise (h : list SpanObj) (s : ref) (index : Z)
                              (element : elem) (e : exn) :
  Span.insert_error_line h s index element = Raise e ->
  e = RecursionError \/ e = Dangling.
Proof.
  unfold Span.insert_error_line.
  destruct (h !! s) as [o|]; cbn [rbind]; [|intros [= <-]; by right].
  destruct (Span.str_elem h element) as [se|e'] eqn:He; cbn [rbind].
  - destruct (Span.str_rec (depth h) h s) as [ss|e''] eqn:Hs; cbn [rbind];
      [discriminate|].
    intros [= ->]. by apply str_rec_raise in Hs.
  - intros [= ->]. destruct element as [t|c]; [discriminate|].
    by apply str_rec_raise in He.
Qed.

Lemma insert_element_outside_eq (w : world) (s : ref) (o : SpanObj)
                                (index : Z) (element : elem) :
  heap w !! s = Some o ->
  Z.of_nat (length (elems o)) < index ->
  Span.insert_element s index element w =
  match Span.insert_error_line (heap w) s index element with
  | Ok line => Ok (tt, mkWorld (heap w) (stdout w ++ [line]))
  | Raise e => Raise e
  end.
Proof.
  intros Ho Hi. unfold Span.insert_element. unfold_M. rewrite Ho.
  destruct (Z.ltb_spec index (Z.of_nat (length (elems o)))); [lia|].
  destruct (Z.eqb_spec index (Z.of_nat (length (elems o)))); [lia|].
  by destruct (Span.insert_error_line _ _ _ _).
Qed.

(** C5 (as amended).  [Span.insert_element] at an index greater than the
    number of elements raises no [IndexError]: it prints one line and
    returns [None] as on every other path, and it leaves every object of
    the heap as it was, so the element is not appended. *)
Theorem insert_element_outside (w : world) (s : ref) (o : SpanObj)
                               (index : Z) (element : elem) :
  heap w !! s = Some o ->
  Z.of_nat (length (elems o)) < index ->
  Span.insert_element s index element w =
    match Span.insert_error_line (heap w) s index element with
    | Ok line => Ok (tt, mkWorld (heap w) (stdout w ++ [line]))
    | Raise e => Raise e
    end /\
  Span.insert_element s index element w <> Raise IndexError /\
  (forall w', Span.insert_element s index element w = Ok (tt, w') ->
              heap w' = heap w /\ exists line, stdout w' = stdout w ++ [line]).
Proof.
  intros Ho Hi. rewrite (insert_element_outside_eq w s o index element Ho Hi).
  split; [done|].
  destruct (Span.insert_error_line _ _ _ _) as [line|e] eqn:Hl.
  - split; [discriminate|]. intros w' [= <-]. simpl. eauto.
  - split; [|discriminate].
    intros [= ->]. apply insert_error_line_raise in Hl as [|]; discriminate.
Qed.

Lemma insert_element_outside_witness :
  Span.insert_element 0%nat 5 (ETok third_token) two_token_world =
    match Span.insert_error_line (heap two_token_world) 0%nat 5 (ETok third_token) with
    | Ok line => Ok (tt, mkWorld (heap two_token_world)
                                 (stdout two_token_world ++ [line]))
    | Raise e => Raise e
    end /\
  Span.insert_element 0%nat 5 (ETok third_token) two_token_world
    <> Raise IndexError /\
  (forall w', Span.insert_element 0%nat 5 (ETok third_token) two_token_world
              = Ok (tt, w') ->
              heap w' = heap two_token_world /\
              exists line, stdout w' = stdout two_token_world ++ [line]).
Proof.
  eapply (insert_element_outside two_token_world 0%nat _ 5 (ETok third_token)).
  - vm_compute. reflexivity.
  - vm_compute. reflexivity.
Defined.

(** C5, the claim as stated fails: an insertion at index 5 into a span of
    two elements ends without an exception; the caller gets the same
    [None] as after a successful insertion, and a line is printed. *)
Lemma insert_element_counterexample :
  Span.insert_element 0%nat 5 (ETok third_token) two_token_world =
  Ok (tt, mkWorld (heap two_token_world)
        ["Error: Cannot add element 'c' at index 5 of span '2' with length [NP a b]."]).
Proof. vm_compute. reflexivity. Qed.

(** [Tree.insert_child] at an index past the end appends the node and
    returns [True]. *)
Lemma insert_child_past_end (cat lbl : string) (tok : option Token)
                            (cs : list Tree.Tree) (index : Z) (node : Tree.Tree) :
  Z.of_nat (length cs) <= index ->
  Tree.insert_child (Tree.Node cat lbl tok cs) index node =
  (Tree.Node cat lbl tok (cs ++ [node]), true).
Proof.
  intros H. unfold Tree.insert_child, list_insert.
  destruct (Z.ltb_spec index 0); [lia|].
  rewrite Z.min_r by lia. rewrite Nat2Z.id.
  by rewrite take_ge, drop_ge by lia.
Qed.

(** ** Containment with absent indices *)

(** The outcome of the comparison in [includes_span] for the four indices. *)
Lemma included_cases (s1 e1 s2 e2 : pyidx) :
  Span.included s1 e1 s2 e2 =
  match s1, s2 with
  | IInt a, IInt b =>
      if a <=? b then
        match e1, e2 with
        | IInt c, IInt d => Ok (c >=? d)
        | _, _ => Raise TypeError
        end
      else Ok false
  | _, _ => Raise TypeError
  end.
Proof.
  unfold Span.included.
  destruct s1 as [|a|], s2 as [|b|]; reflexivity.
Qed.

Lemma Span_includes_span_eq (w : world) (self span : ref)
                            (s1 e1 s2 e2 : pyidx) :
  Span.get_start_index true self w = Ok (s1, w) ->
  Span.get_end_index true self w = Ok (e1, w) ->
  Span.get_start_index true span w = Ok (s2, w) ->
  Span.get_end_index true span w = Ok (e2, w) ->
  Span.includes_span self span w =
  match Span.included s1 e1 s2 e2 with
  | Ok b => Ok (b, w)
  | Raise e => Raise e
  end.
Proof.
  intros H1 H2 H3 H4. unfold Span.includes_span, bind.
  rewrite H1, H2, H3, H4. reflexivity.
Qed.

Lemma Tree_includes_span_eq (w : world) (self : Tree.Tree) (span : ref)
                            (s1 e1 s2 e2 : pyidx) :
  Tree.get_start_index true self = Ok s1 ->
  Tree.get_end_index true self = Ok e1 ->
  Span.get_start_index true span w = Ok (s2, w) ->
  Span.get_end_index true span w = Ok (e2, w) ->
  Tree.includes_span self span w =
  match Span.included s1 e1 s2 e2 with
  | Ok b => Ok (b, w)
  | Raise e => Raise e
  end.
Proof.
  intros H1 H2 H3 H4. unfold Tree.includes_span, bind, lift.
  rewrite H1, H2, H3, H4. reflexivity.
Qed.

(** C6 (as amended).  [includes_span] of [Span] and of [Tree] compares the
    four indices without a test for [None]: it returns a truth value when
    all four are ints, and returns [False] with an absent end index only
    when both start indices are present and the start of [self] is the
    greater one; an absent start index, or an absent end index once the
    starts are in order, raises [TypeError]. *)
Theorem includes_span_absent_index (w : world) (span : ref)
                                   (s1 e1 s2 e2 : pyidx) :
  Span.get_start_index true span w = Ok (s2, w) ->
  Span.get_end_index true span w = Ok (e2, w) ->
  let outcome :=
    match s1, s2 with
    | IInt a, IInt b =>
        if a <=? b then
          match e1, e2 with
          | IInt c, IInt d => Ok (c >=? d, w)
          | _, _ => Raise TypeError
          end
        else Ok (false, w)
    | _, _ => Raise TypeError
    end in
  (forall self : ref,
     Span.get_start_index true self w = Ok (s1, w) ->
     Span.get_end_index true self w = Ok (e1, w) ->
     Span.includes_span self span w = outcome) /\
  (forall self : Tree.Tree,
     Tree.get_start_index true self = Ok s1 ->
     Tree.get_end_index true self = Ok e1 ->
     Tree.includes_span self span w = outcome).
Proof.
  intros H3 H4 outcome. subst outcome. split.
  - intros self H1 H2.
    rewrite (Span_includes_span_eq w self span s1 e1 s2 e2) by done.
    rewrite included_cases.
    destruct s1 as [|a|], s2 as [|b|]; try reflexivity.
    destruct (a <=? b); [|reflexivity].
    destruct e1 as [|c|], e2 as [|d|]; reflexivity.
  - intros self H1 H2.
    rewrite (Tree_includes_span_eq w self span s1 e1 s2 e2) by done.
    rewrite included_cases.
    destruct s1 as [|a|], s2 as [|b|]; try reflexivity.
    destruct (a <=? b); [|reflexivity].
    destruct e1 as [|c|], e2 as [|d|]; reflexivity.
Qed.

Lemma includes_span_absent_index_witness :
  Span.includes_span 0%nat 1%nat phrase_and_comma_world = Raise TypeError /\
  Tree.includes_span phrase_tree 1%nat phrase_and_comma_world = Raise TypeError.
Proof.
  destruct (includes_span_absent_index phrase_and_comma_world 1%nat
              (IInt 0) (IInt 1) INone INone) as [HS HT].
  - vm_compute. reflexivity.
  - vm_compute. reflexivity.
  - split.
    + apply (HS 0%nat); vm_compute; reflexivity.
    + apply (HT phrase_tree); vm_compute; reflexivity.
Defined.

(** C6, the claim as stated fails: the span at address 1 holds only a
    comma, so its indices without punctuation are [None]; the containment
    tests against it raise [TypeError] in both directions and on a tree. *)
Lemma includes_span_counterexample :
  Span.get_start_index true 1%nat phrase_and_comma_world
    = Ok (INone, phrase_and_comma_world) /\
  Span.get_end_index true 1%nat phrase_and_comma_world
    = Ok (INone, phrase_and_comma_world) /\
  Span.includes_span 0%nat 1%nat phrase_and_comma_world = Raise TypeError /\
  Span.includes_span 1%nat 0%nat phrase_and_comma_world = Raise TypeError /\
  Tree.includes_span phrase_tree 1%nat phrase_and_comma_world = Raise TypeError.
Proof. repeat split; vm_compute; reflexivity. Qed.

(** ** The distance of an antecedent *)

Lemma is_between_spec (a b : Z) (tok : Token) :
  well_formed_token tok ->
  Antecedent.is_between (IInt a) (IInt b) tok = Ok (word_between a b tok).
Proof.
  intros (id & z & xpos & Hid & Hz & Hx).
  unfold Antecedent.is_between, word_between, attr, int.
  rewrite Hid, Hx. unfold py_gt, py_lt. cbn [rbind]. rewrite Hz. cbn [rbind].
  rewrite Z.gtb_ltb.
  destruct (a <? z - 1); [|reflexivity]. cbn [rbind andb].
  destruct (z - 1 <? b); reflexivity.
Qed.

Lemma between_spec (a b : Z) (sentence : list Token) :
  Forall well_formed_token sentence ->
  Antecedent.between (IInt a) (IInt b) sentence =
  Ok (filter (fun t => word_between a b t = true) sentence).
Proof.
  induction 1 as [|tok r Hw _ IH]; [reflexivity|].
  simpl. rewrite (is_between_spec a b tok Hw), IH. simpl.
  rewrite filter_cons. destruct (word_between a b tok); reflexivity.
Qed.

Lemma compute_distance_spec (w : world) (self m : ref) (o : SpanObj)
                            (a b : Z) (sentence : list Token) :
  heap w !! self = Some o ->
  Span.get_end_index true self w = Ok (IInt a, w) ->
  Span.get_start_index true m w = Ok (IInt b, w) ->
  Forall well_formed_token sentence ->
  let n := Z.of_nat (length (filter (fun t => word_between a b t = true) sentence)) in
  Antecedent.compute_distance self m sentence w =
  Ok (Some n, mkWorld (<[self := set_distance_field n o]> (heap w)) (stdout w)).
Proof.
  intros Ho Ha Hb Hs n. unfold Antecedent.compute_distance, bind.
  rewrite Ha, Hb. unfold lift. rewrite (between_spec a b sentence Hs).
  unfold modify_obj, ret. rewrite Ho. reflexivity.
Qed.

(** C9 (as amended).  [get_distance] returns [None] for an antecedent
    without moving element.  A stored distance other than [0] is returned
    as it is, whatever the indices of the antecedent are now: nothing
    invalidates it.  Otherwise the distance is the number of tokens of the
    sentence that are not punctuation and lie strictly between the end of
    the antecedent and the start of the moving element, and it is stored
    on the antecedent. *)
Theorem get_distance_cached (w : world) (self : ref) (o : SpanObj)
                            (sentence : list Token) :
  heap w !! self = Some o ->
  (movElem o = None ->
   Antecedent.get_distance self sentence w = Ok (None, w)) /\
  (forall (m : ref) (d : Z),
     movElem o = Some m -> distance o = Some d -> d <> 0 ->
     Antecedent.get_distance self sentence w = Ok (Some d, w)) /\
  (forall (m : ref) (a b : Z),
     movElem o = Some m ->
     distance o = None \/ distance o = Some 0 ->
     Span.get_end_index true self w = Ok (IInt a, w) ->
     Span.get_start_index true m w = Ok (IInt b, w) ->
     Forall well_formed_token sentence ->
     let n := Z.of_nat (length (filter (fun t => word_between a b t = true)
                                       sentence)) in
     Antecedent.get_distance self sentence w =
     Ok (Some n, mkWorld (<[self := set_distance_field n o]> (heap w))
                         (stdout w))).
Proof.
  intros Ho.
  assert (Hg : Antecedent.get_distance self sentence w =
               match movElem o with
               | None => Ok (None, w)
               | Some m =>
                   match distance o with
                   | Some d =>
                       if d =? 0
                       then Antecedent.compute_distance self m sentence w
                       else Ok (Some d, w)
                   | None => Antecedent.compute_distance self m sentence w
                   end
               end).
  { unfold Antecedent.get_distance, bind, get_obj. rewrite Ho.
    destruct (movElem o); [|reflexivity].
    destruct (distance o) as [d|]; [|reflexivity].
    destruct (d =? 0); reflexivity. }
  rewrite Hg. split; [|split].
  - intros ->. reflexivity.
  - intros m d -> -> Hd. destruct (Z.eqb_spec d 0); [done|reflexivity].
  - intros m a b -> Hd Ha Hb Hs.
    destruct Hd as [-> | ->]; simpl;
      by apply (compute_distance_spec w self m o a b sentence).
Qed.

Lemma get_distance_cached_witness :
  Antecedent.get_distance 0%nat five_tokens distance_world
    = Ok (Some 2, distance_world) /\
  value_of (Antecedent.get_distance 0%nat five_tokens linked_world)
    = Ok (Some 2).
Proof.
  split.
  - edestruct (get_distance_cached distance_world 0%nat) as (_ & Hc & _);
      [vm_compute; reflexivity|].
    apply (Hc 1%nat 2); [vm_compute; reflexivity ..|discriminate].
  - edestruct (get_distance_cached linked_world 0%nat) as (_ & _ & Hf);
      [vm_compute; reflexivity|].
    rewrite (Hf 1%nat 0 4).
    + vm_compute. reflexivity.
    + vm_compute. reflexivity.
    + left. vm_compute. reflexivity.
    + vm_compute. reflexivity.
    + vm_compute. reflexivity.
    + repeat constructor;
        (eexists _, _, _; repeat split; vm_compute; reflexivity).
Defined.

(** C9, the claim as stated fails: after the distance 2 was stored, the
    antecedent was extended and now ends at index 2; one word lies between
    it and the moving element at index 4, but [get_distance] still returns
    the stored 2. *)
Lemma get_distance_counterexample :
  Span.get_end_index true 0%nat linked_world = Ok (IInt 0, linked_world) /\
  Span.get_end_index true 0%nat distance_world = Ok (IInt 2, distance_world) /\
  Span.get_start_index true 1%nat distance_world = Ok (IInt 4, distance_world) /\
  length (filter (fun t => word_between 2 4 t = true) five_tokens) = 1%nat /\
  Antecedent.get_distance 0%nat five_tokens distance_world
    = Ok (Some 2, distance_world).
Proof. repeat split; vm_compute; reflexivity. Qed.

(** ** The additive merge of dictionaries *)

Section AddDictFacts.

Context {num : Type} (num_add : num -> num -> num).
Implicit Types (d base add : list (pykey * pyval num)) (key k : pykey).

Lemma dict_get_set_eq key (v : pyval num) d :
  dict_get key (dict_set key v d) = Some v.
Proof.
  induction d as [|[k x] r IH]; simpl.
  - by rewrite decide_True.
  - destruct (decide (k = key)) as [->|Hne]; simpl.
    + by rewrite decide_True.
    + by rewrite decide_False.
Qed.

Lemma dict_get_set_ne key k (v : pyval num) d :
  k <> key -> dict_get key (dict_set k v d) = dict_get key d.
Proof.
  intros Hne. induction d as [|[k' x] r IH]; simpl.
  - by rewrite decide_False.
  - destruct (decide (k' = k)) as [->|Hne']; simpl.
    + by rewrite !decide_False.
    + destruct (decide (k' = key)); [done|apply IH].
Qed.

Lemma dict_get_absent key d :
  key ∉ map fst d -> dict_get key d = None.
Proof.
  induction d as [|[k x] r IH]; simpl; [done|].
  intros Hn. apply not_elem_of_cons in Hn as [Hne Hr].
  rewrite decide_False by done. by apply IH.
Qed.

Lemma add_items_lookup (f : pyval num -> pyval num -> pyval num) add base key :
  NoDup (map fst add) ->
  dict_get key (add_items f add base) =
  match dict_get key add with
  | None => dict_get key base
  | Some val =>
      match dict_get key base with
      | None => Some val
      | Some b => Some (f val b)
      end
  end.
Proof.
  revert base. induction add as [|[k v] rest IH]; intros base Hnd; [done|].
  simpl in Hnd. apply NoDup_cons in Hnd as [Hk Hnd].
  simpl. rewrite (IH _ Hnd).
  destruct (decide (k = key)) as [->|Hne].
  - rewrite (dict_get_absent key rest Hk).
    destruct (dict_get key base); by rewrite dict_get_set_eq.
  - destruct (dict_get k base);
      rewrite (dict_get_set_ne key k) by done; reflexivity.
Qed.

Lemma set_update_elem (s t : list pykey) (x : pykey) :
  x ∈ set_update s t <-> x ∈ s \/ x ∈ t.
Proof.
  unfold set_update. revert s. induction t as [|y r IH]; intros s; simpl.
  - rewrite elem_of_nil. tauto.
  - rewrite IH, elem_of_cons. destruct (decide (y ∈ s)) as [Hy|Hy].
    + split; [tauto|]. intros [?|[->|?]]; auto.
    + rewrite elem_of_app, list_elem_of_singleton. tauto.
Qed.

End AddDictFacts.

(** C7.  [add_dict] merges the two dictionaries key by key: a key of the
    dictionary to add that is absent from the base is inserted with its
    value, a key present in both gets the combined value, every other key
    of the base keeps its value; numbers are summed, lists concatenated,
    sets united and dictionaries merged by [add_dict] itself. *)
Theorem add_dict_merges {num : Type} (num_add : num -> num -> num)
                        (base_dict dict_to_add : list (pykey * pyval num)) :
  NoDup (map fst dict_to_add) ->
  (forall key : pykey,
     dict_get key (add_dict num_add base_dict dict_to_add) =
     match dict_get key dict_to_add with
     | None => dict_get key base_dict
     | Some val =>
         match dict_get key base_dict with
         | None => Some val
         | Some b => Some (add_value num_add val b)
         end
     end) /\
  (forall v x : num,
     add_value num_add (VNum v) (VNum x) = VNum (num_add x v)) /\
  (forall v x : list (pyval num),
     add_value num_add (VList v) (VList x) = VList (x ++ v)) /\
  (forall v x : list pykey,
     exists u, add_value num_add (VSet v) (VSet x) = VSet u /\
               forall k, k ∈ u <-> k ∈ x \/ k ∈ v) /\
  (forall v x : list (pykey * pyval num),
     add_value num_add (VDict v) (VDict x) = VDict (add_dict num_add x v)).
Proof.
  intros Hnd. split; [|split; [|split; [|split]]].
  - intros key. unfold add_dict. by apply add_items_lookup.
  - reflexivity.
  - reflexivity.
  - intros v x. eexists. split; [reflexivity|].
    intros k. apply set_update_elem.
  - reflexivity.
Qed.

Lemma add_dict_merges_witness :
  dict_get (KStr "A") (add_dict Z.add doc_base doc_add) = Some (VNum 2) /\
  dict_get (KStr "D") (add_dict Z.add doc_base doc_add) = Some (VNum 2) /\
  dict_get (KStr "B") (add_dict Z.add doc_base doc_add) =
    Some (VDict [(KStr "c", VNum 3); (KStr "d", VNum 3); (KStr "e", VNum 1)]).
Proof.
  destruct (add_dict_merges Z.add doc_base doc_add) as (H & _).
  - refine (bool_decide_unpack _ _). vm_compute. exact I.
  - rewrite !H. repeat split; reflexivity.
Defined.

(** The example of the docstring of [add_dict]. *)
Example add_dict_docstring : add_dict Z.add doc_base doc_add = doc_result.
Proof. reflexivity. Qed.

(** ** Antecedents in an incorrect location *)

Import Evaluation.

Lemma incr_spec (d : Z) (key : string) (n c : Z) (eval_dict : buckets)
                (b : bucket) :
  eval_dict !! d = Some b ->
  b !! key = Some c ->
  incr d key n eval_dict = Ok (<[d := <[key := c + n]> b]> eval_dict).
Proof.
  intros Hd Hk. unfold incr, count. rewrite Hd, Hk. reflexivity.
Qed.






(** Scenario E of the specification, through the whole evaluation: one
    incorrect location, no correct match, no miss and no false alarm; the
    fair counts get one half each for [FP] and [FN]. *)
Example scenario_E :
  exists e f,
    evaluate_antecedents FairEval_overlap_type
      [gold_antecedent] [system_antecedent] = Ok e /\
    overall e !! "IL" = Some 1 /\
    overall e !! "Correct" = Some 0 /\
    overall e !! "FP" = Some 0 /\
    overall e !! "FN" = Some 0 /\
    fair_eval_dict (overall e) = Ok f /\
    this <$> f !! "FP" = Some (Qmake 1 2) /\
    this <$> f !! "FN" = Some (Qmake 1 2) /\
    this <$> f !! "TP" = Some (Qmake 0 1).
Proof.
  eexists _, _. split; [vm_compute; reflexivity|].
  split; [vm_compute; reflexivity|]. split; [vm_compute; reflexivity|].
  split; [vm_compute; reflexivity|]. split; [vm_compute; reflexivity|].
  split; [vm_compute; reflexivity|].
  repeat split; vm_compute; reflexivity.
Qed.

(** ** The BIO codec *)

Import BIO.

(** The shapes decoded from some tag sequences. *)
Example decode_flat :
  decoded_shape [tagged "1" "B-NP"; tagged "2" "I-NP"; tagged "3" "O";
                 tagged "4" "B-PP"] =
  Ok [ShSpan "NP" [ShTok (Some "1"); ShTok (Some "2")];
      ShSpan "PP" [ShTok (Some "4")]].
Proof. vm_compute. reflexivity. Qed.

Example decode_adjacent :
  decoded_shape [tagged "1" "B-NP"; tagged "2" "B-NP"] =
  Ok [ShSpan "NP" [ShTok (Some "1")]; ShSpan "NP" [ShTok (Some "2")]].
Proof. vm_compute. reflexivity. Qed.

(** Two flat phrases side by side survive the round trip. *)
Example round_trip_flat :
  run (round_trip three_words flat_forest "chunks") =
  Ok (["B-NP"; "I-NP"; "B-PP"],
      [ShSpan "NP" [ShTok (Some "1"); ShTok (Some "2")];
       ShSpan "PP" [ShTok (Some "3")]],
      [ShSpan "NP" [ShTok (Some "1"); ShTok (Some "2")];
       ShSpan "PP" [ShTok (Some "3")]]).
Proof. vm_compute. reflexivity. Qed.

(** C1.  The round trip of a nested forest does not give the forest back:
    the noun phrase [[NP a [PP b]]] is encoded as [B-NP], [I-NP|B-PP], and
    the decoder puts the second token into the noun phrase itself as well
    as into the inner phrase. *)
Theorem round_trip_nested :
  run (round_trip three_words nested_forest "chunks") =
  Ok (["B-NP"; "I-NP|B-PP"; "O"],
      [ShSpan "NP" [ShTok (Some "1"); ShSpan "PP" [ShTok (Some "2")]]],
      [ShSpan "NP" [ShTok (Some "1"); ShTok (Some "2");
                    ShSpan "PP" [ShTok (Some "2")]]]).
Proof. vm_compute. reflexivity. Qed.

(** The stack handling at a [B-] tag in the decoder of [MovElem]: at
    level 0 the root goes to the output and the stack is emptied, at a
    deeper level the stack is cut to the level. *)
Lemma MovElem_B_stack_spec (spans : list ref) (root : ref) (open : list ref)
                           (i : nat) (span_stack : list ref) :
  MovElem_B_stack 0 (spans, root :: open) = (spans ++ [root], []) /\
  MovElem_B_stack (S i) (spans, span_stack) = (spans, take (S i) span_stack).
Proof. split; [reflexivity|]. by destruct span_stack. Qed.

(** C2.  At a [B-] tag of level 0 with several open spans the decoder of
    [Span] moves the innermost open span to the output and keeps the root
    and the spans between on the stack; only with a single open span is
    the root moved and the stack emptied.  At a deeper level [i] the stack
    is cut to length [i].  Decoding [B-NP|B-PP], [B-NP|B-PP] therefore
    gives the first inner phrase as a top-level span and makes the second
    noun phrase a child of the first. *)
Theorem decode_B_level0 :
  (forall (spans : list ref) (root : ref) (between : list ref) (top : ref),
     Span_B_stack 0 (spans, root :: between ++ [top]) =
     (spans ++ [top], root :: between)) /\
  (forall (spans : list ref) (root : ref),
     Span_B_stack 0 (spans, [root]) = (spans ++ [root], [])) /\
  (forall (i : nat) (spans span_stack : list ref),
     Span_B_stack (S i) (spans, span_stack) = (spans, take (S i) span_stack)) /\
  decoded_shape [tagged "1" "B-NP|B-PP"; tagged "2" "B-NP|B-PP"] =
  Ok [ShSpan "PP" [ShTok (Some "1")];
      ShSpan "NP" [ShSpan "PP" [ShTok (Some "1")];
                   ShSpan "NP" [];
                   ShSpan "PP" [ShTok (Some "2")]]].
Proof.
  split; [|split; [|split]].
  - intros spans root between top. unfold Span_B_stack, pop.
    change (root :: between ++ [top]) with ((root :: between) ++ [top]).
    rewrite last_snoc, length_app. simpl.
    rewrite Nat.add_1_r. simpl. by rewrite take_app_length.
  - reflexivity.
  - intros i spans span_stack. unfold Span_B_stack. by destruct (last span_stack).
  - vm_compute. reflexivity.
Qed.

(** *** Malformed input *)

Lemma I_tag_not_B (a : string) :
  startswith "I-" a = true -> startswith "B-" a = false.
Proof.
  unfold startswith. intros HI.
  destruct a as [|c a]; cbn [String.prefix] in *; [discriminate|].
  destruct (Ascii.ascii_dec "I" c) as [<-|]; [|discriminate].
  reflexivity.
Qed.

(** A level that is an [I-] tag leaves the two variables of the loop as
    they are, or raises; without a span at its position on the stack it
    raises [IndexError]. *)
Lemma decode_level_I (tok : Token) (n i : nat) (a : string) (st : dstate)
                     (w : world) :
  startswith "I-" a = true ->
  match snd st !! i with
  | None => decode_level tok n st i a w = Raise IndexError
  | Some _ =>
      (exists w', decode_level tok n st i a w = Ok (st, w')) \/
      (exists e, decode_level tok n st i a w = Raise e)
  end.
Proof.
  intros HI. unfold decode_level. rewrite (I_tag_not_B a HI), HI.
  destruct (snd st !! i) as [s|]; [|reflexivity].
  unfold bind, ret. destruct (Span.append_element s (ETok tok) w) as [[u w']|e].
  - left. by exists w'.
  - right. by exists e.
Qed.

Lemma decode_levels_I (tok : Token) (n i k : nat) (annotations : list string)
                      (st : dstate) (w : world) :
  (forall j a, annotations !! j = Some a -> (k + j <= i)%nat ->
               startswith "I-" a = true) ->
  (k <= i)%nat ->
  (i - k < length annotations)%nat ->
  (length (snd st) <= i)%nat ->
  (exists e, decode_levels tok n k annotations st w = Raise e) /\
  (k = i -> decode_levels tok n k annotations st w = Raise IndexError).
Proof.
  revert k w. induction annotations as [|a r IH]; intros k w HI Hk Hlen Hst.
  { simpl in Hlen. lia. }
  assert (Ha : startswith "I-" a = true).
  { apply (HI 0%nat a); [reflexivity|lia]. }
  pose proof (decode_level_I tok n k a st w Ha) as Hstep.
  cbn [decode_levels]. unfold bind.
  destruct (snd st !! k) as [s|] eqn:Hs.
  - assert (k < i)%nat as Hlt.
    { apply lookup_lt_Some in Hs. lia. }
    split; [|lia].
    destruct Hstep as [[w' ->]|[e ->]]; [|by exists e].
    destruct (IH (S k) w') as [He _]; [|lia|simpl in Hlen; lia|done|done].
    intros j a' Hj Hle. apply (HI (S j) a'); [done|lia].
  - rewrite Hstep. split; [by exists IndexError|done].
Qed.

Lemma decode_tokens_app (annoname : string) (pre post : list Token)
                        (st : dstate) (w : world) :
  decode_tokens annoname (pre ++ post) st w =
  match decode_tokens annoname pre st w with
  | Ok (st', w') => decode_tokens annoname post st' w'
  | Raise e => Raise e
  end.
Proof.
  revert st w. induction pre as [|tok r IH]; intros st w; [reflexivity|].
  simpl. unfold bind.
  destruct (decode_token annoname st tok w) as [[st' w']|e]; [apply IH|done].
Qed.

(** C3 (as amended).  The decoder has no recovery for an [I-] tag without
    open span.  When the tokens before have been decoded and have left at
    most [i] spans open, a token whose levels up to [i] are all [I-] tags
    makes [span_from_BIO_annotation] raise; at level 0, that is with no
    open span at all, the exception is [IndexError]. *)
Theorem decode_I_without_open_span
    (annoname : string) (pre post : list Token) (tok : Token)
    (w w' : world) (spans span_stack : list ref) (i : nat) :
  decode_tokens annoname pre ([], []) w = Ok ((spans, span_stack), w') ->
  attr_get tok annoname "O" <> "O" ->
  attr_get tok annoname "O" <> "_" ->
  (forall j a,
     split "|" (strip (attr_get tok annoname "O")) !! j = Some a ->
     (j <= i)%nat -> startswith "I-" a = true) ->
  (i < length (split "|" (strip (attr_get tok annoname "O"))))%nat ->
  (length span_stack <= i)%nat ->
  (exists e,
     span_from_BIO_annotation (pre ++ tok :: post) annoname w = Raise e) /\
  (i = 0%nat ->
   span_from_BIO_annotation (pre ++ tok :: post) annoname w = Raise IndexError).
Proof.
  intros Hpre HO H_ HI Hi Hst.
  set (annotations := split "|" (strip (attr_get tok annoname "O"))) in *.
  assert (Htok : decode_token annoname (spans, span_stack) tok w' =
                 decode_levels tok (length annotations) 0 annotations
                   (spans, take (length annotations) span_stack) w').
  { unfold decode_token. fold annotations.
    destruct (String.eqb_spec (attr_get tok annoname "O") "O"); [done|].
    destruct (String.eqb_spec (attr_get tok annoname "O") "_"); [done|].
    reflexivity. }
  destruct (decode_levels_I tok (length annotations) i 0 annotations
              (spans, take (length annotations) span_stack) w')
    as [[e He] H0].
  { intros j a Hj Hle. by apply (HI j a). }
  { lia. }
  { lia. }
  { simpl. rewrite length_take. lia. }
  assert (Hrun : forall e',
             decode_levels tok (length annotations) 0 annotations
               (spans, take (length annotations) span_stack) w' = Raise e' ->
             span_from_BIO_annotation (pre ++ tok :: post) annoname w = Raise e').
  { intros e' He'. unfold span_from_BIO_annotation, bind.
    rewrite decode_tokens_app, Hpre. cbn [decode_tokens]. unfold bind.
    by rewrite Htok, He'. }
  split.
  - exists e. by apply Hrun.
  - intros ->. apply Hrun. by apply H0.
Qed.

Lemma decode_I_without_open_span_witness :
  (exists e,
     span_from_BIO_annotation
       ([tagged "1" "O"] ++ tagged "2" "I-NP" :: [tagged "3" "I-NP"])
       "chunks" empty_world = Raise e) /\
  (0%nat = 0%nat ->
   span_from_BIO_annotation
     ([tagged "1" "O"] ++ tagged "2" "I-NP" :: [tagged "3" "I-NP"])
     "chunks" empty_world = Raise IndexError).
Proof.
  apply (decode_I_without_open_span "chunks" [tagged "1" "O"]
           [tagged "3" "I-NP"] (tagged "2" "I-NP")
           empty_world empty_world [] [] 0%nat).
  - vm_compute. reflexivity.
  - vm_compute. discriminate.
  - vm_compute. discriminate.
  - intros j a Hj Hle. assert (j = 0%nat) as -> by lia.
    vm_compute in Hj. injection Hj as <-. reflexivity.
  - vm_compute. lia.
  - simpl. lia.
Defined.

(** C3, the claim as stated fails: a sentence whose only token is tagged
    [I-NP] is not decoded, the decoder raises [IndexError]; so does an
    [I-] tag at a second level that was never opened. *)
Lemma decode_malformed_counterexample :
  decoded_shape [tagged "1" "I-NP"] = Raise IndexError /\
  decoded_shape [tagged "1" "B-NP"; tagged "2" "I-NP|I-PP"] = Raise IndexError.
Proof. split; vm_compute; reflexivity. Qed.

(** The stacked input of the specification: the token of the second
    position is an element of both levels. *)
Example decode_stacked :
  decoded_shape [tagged "1" "B-NP|B-PP"; tagged "2" "I-NP|I-PP"; tagged "3" "O"] =
  Ok [ShSpan "NP" [ShSpan "PP" [ShTok (Some "1"); ShTok (Some "2")];
                   ShTok (Some "2")]].
Proof. vm_compute. reflexivity. Qed.

(** An [ID] that [int] does not accept: the index methods of [Span] and
    the decoder raise [ValueError], the index methods of [Tree] return
    [None]. *)
Example suffixed_id :
  Span.get_start_index true 0%nat suffixed_world = Raise ValueError /\
  Span.update_start_index 0%nat suffixed_world = Raise ValueError /\
  decoded_shape [tagged "3-1" "B-NP"] = Raise ValueError /\
  Tree.get_start_index true suffixed_tree = Ok INone /\
  Tree.get_end_index false suffixed_tree = Ok INone.
Proof. repeat split; vm_compute; reflexivity. Qed.

(** ** What the index updates leave alone *)

Lemma bind_ok {A B} (m : M A) (k : A -> M B) (w : world) (r : B * world) :
  bind m k w = Ok r -> exists a w1, m w = Ok (a, w1) /\ k a w1 = Ok r.
Proof.
  unfold bind. destruct (m w) as [[a w1]|e]; [|discriminate]. eauto.
Qed.

Lemma modify_obj_ok (s : ref) (f : SpanObj -> SpanObj) (w w' : world)
                    (u : unit) :
  modify_obj s f w = Ok (u, w') ->
  exists o, heap w !! s = Some o /\
            w' = mkWorld (<[s := f o]> (heap w)) (stdout w).
Proof.
  unfold modify_obj. destruct (heap w !! s) as [o|]; [|discriminate].
  intros [= _ <-]. eauto.
Qed.

Lemma get_obj_ok (s : ref) (w w1 : world) (o : SpanObj) :
  get_obj s w = Ok (o, w1) -> heap w !! s = Some o /\ w1 = w.
Proof.
  unfold get_obj. destruct (heap w !! s) as [o'|]; [|discriminate].
  by intros [= <- <-].
Qed.

Lemma read_heap_ok {A} (f : list SpanObj -> result A) (w w1 : world) (a : A) :
  read_heap f w = Ok (a, w1) -> f (heap w) = Ok a /\ w1 = w.
Proof.
  unfold read_heap, lift. destruct (f (heap w)); [|discriminate].
  by intros [= <- <-].
Qed.

Lemma get_tokens_ok (s : ref) (w w1 : world) (tokens : list Token) :
  Span.get_tokens s w = Ok (tokens, w1) ->
  Span.get_tokens_rec (depth (heap w)) (heap w) s = Ok tokens /\ w1 = w.
Proof. apply read_heap_ok. Qed.

Lemma same_but_indices_refl (o : SpanObj) : same_but_indices o o.
Proof. by repeat split. Qed.

Lemma same_but_indices_trans (o1 o2 o3 : SpanObj) :
  same_but_indices o1 o2 -> same_but_indices o2 o3 -> same_but_indices o1 o3.
Proof.
  intros (?&?&?&?&?&?&?) (?&?&?&?&?&?&?). repeat split; congruence.
Qed.

Lemma frame_refl (w : world) : frame w w.
Proof.
  split; [|done]. apply Forall_Forall2_diag, Forall_forall.
  intros o _. apply same_but_indices_refl.
Qed.

Lemma frame_trans (w1 w2 w3 : world) : frame w1 w2 -> frame w2 w3 -> frame w1 w3.
Proof.
  intros [H1 E1] [H2 E2]. split; [|congruence].
  eapply Forall2_trans; [|exact H1|exact H2]. apply same_but_indices_trans.
Qed.

Lemma frame_same_elems (w w' : world) :
  frame w w' -> same_elems (heap w) (heap w').
Proof.
  intros [H _]. eapply Forall2_impl; [exact H|]. by intros o o' (_&_&?&_).
Qed.

Lemma frame_length (w w' : world) :
  frame w w' -> length (heap w') = length (heap w).
Proof. intros [H _]. symmetry. by eapply Forall2_length. Qed.

Lemma frame_lookup (w w' : world) (s : ref) (o : SpanObj) :
  frame w w' -> heap w !! s = Some o ->
  exists o', heap w' !! s = Some o' /\ same_but_indices o o'.
Proof. intros [H _] Ho. by eapply Forall2_lookup_l. Qed.

(** Writing an index of one object is within the frame. *)
Lemma frame_modify (w : world) (s : ref) (o : SpanObj) (f : SpanObj -> SpanObj) :
  heap w !! s = Some o ->
  same_but_indices o (f o) ->
  frame w (mkWorld (<[s := f o]> (heap w)) (stdout w)).
Proof.
  intros Ho Hf. split; [|done]. simpl.
  rewrite <- (list_insert_id (heap w) s o Ho) at 1.
  apply Forall2_insert; [|done].
  apply Forall_Forall2_diag, Forall_forall. intros ? _.
  apply same_but_indices_refl.
Qed.

Lemma for_each_frame {A} (body : A -> M unit) (l : list A) :
  (forall x w w', x ∈ l -> body x w = Ok (tt, w') -> frame w w') ->
  forall w w', for_each l body w = Ok (tt, w') -> frame w w'.
Proof.
  induction l as [|x r IH]; intros Hb w w'; simpl.
  - intros [= <-]. apply frame_refl.
  - intros H. apply bind_ok in H as ([] & w1 & H1 & H2).
    eapply frame_trans.
    + eapply Hb; [apply list_elem_of_here|exact H1].
    + eapply IH; [|exact H2]. intros y ? ? Hy. apply Hb.
      by apply list_elem_of_further.
Qed.

(** The tokens of a span depend on the elements of the objects only. *)
Lemma collect_ext (rec rec' : ref -> result (list Token)) (es : list elem) :
  (forall c, rec c = rec' c) -> Span.collect rec es = Span.collect rec' es.
Proof.
  intros H. induction es as [|[t|c] r IH]; simpl; [done| |];
    rewrite ?H, IH; done.
Qed.

Lemma get_tokens_rec_same_elems (fuel : nat) (h h' : list SpanObj) (s : ref) :
  same_elems h h' ->
  Span.get_tokens_rec fuel h s = Span.get_tokens_rec fuel h' s.
Proof.
  intros Hh. revert s. induction fuel as [|fuel IH]; intros s; [done|].
  cbn [Span.get_tokens_rec]. destruct (h !! s) as [o|] eqn:Ho.
  - destruct (Forall2_lookup_l _ _ _ _ _ Hh Ho) as (o' & Ho' & He).
    unfold ref in *. rewrite Ho', <- He. by apply collect_ext.
  - apply lookup_ge_None in Ho. rewrite (Forall2_length _ _ _ Hh) in Ho.
    apply lookup_ge_None in Ho. unfold ref in *. by rewrite Ho.
Qed.

Lemma update_start_index_rec_frame (fuel : nat) (s : ref) (w w' : world) :
  Span.update_start_index_rec fuel s w = Ok (tt, w') -> frame w w'.
Proof.
  revert s w w'. induction fuel as [|fuel IH]; intros s w w'; [discriminate|].
  cbn [Span.update_start_index_rec]. intros H.
  apply bind_ok in H as (o & w1 & Hg & H).
  apply get_obj_ok in Hg as [Ho ->].
  destruct (elems o) as [|e0 es] eqn:He.
  - apply modify_obj_ok in H as (o1 & Ho1 & ->).
    apply frame_modify; [done|]. by repeat split.
  - apply bind_ok in H as (tokens & w2 & Ht & H).
    apply get_tokens_ok in Ht as [_ ->].
    apply bind_ok in H as ([] & w3 & Hw & H).
    apply (frame_trans w w3 w').
    + destruct tokens as [|t ts].
      * apply modify_obj_ok in Hw as (o1 & Ho1 & ->).
        apply frame_modify; [done|]. by repeat split.
      * apply bind_ok in Hw as (v & w4 & Hv & Hw).
        unfold lift in Hv. destruct (Span.index_of_token t); [|discriminate].
        injection Hv as <- <-.
        apply modify_obj_ok in Hw as (o1 & Ho1 & ->).
        apply frame_modify; [done|]. by repeat split.
    + eapply for_each_frame; [|exact H].
      intros [t|c] wa wb _; simpl.
      * intros [= <-]. apply frame_refl.
      * apply IH.
Qed.

Lemma update_end_index_rec_frame (fuel : nat) (s : ref) (w w' : world) :
  Span.update_end_index_rec fuel s w = Ok (tt, w') -> frame w w'.
Proof.
  revert s w w'. induction fuel as [|fuel IH]; intros s w w'; [discriminate|].
  cbn [Span.update_end_index_rec]. intros H.
  apply bind_ok in H as (o & w1 & Hg & H).
  apply get_obj_ok in Hg as [Ho ->].
  destruct (elems o) as [|e0 es] eqn:He.
  - apply modify_obj_ok in H as (o1 & Ho1 & ->).
    apply frame_modify; [done|]. by repeat split.
  - apply bind_ok in H as (tokens & w2 & Ht & H).
    apply get_tokens_ok in Ht as [_ ->].
    apply bind_ok in H as ([] & w3 & Hw & H).
    apply (frame_trans w w3 w').
    + destruct (last tokens) as [t|].
      * apply bind_ok in Hw as (v & w4 & Hv & Hw).
        unfold lift in Hv. destruct (Span.index_of_token t); [|discriminate].
        injection Hv as <- <-.
        apply modify_obj_ok in Hw as (o1 & Ho1 & ->).
        apply frame_modify; [done|]. by repeat split.
      * apply modify_obj_ok in Hw as (o1 & Ho1 & ->).
        apply frame_modify; [done|]. by repeat split.
    + eapply for_each_frame; [|exact H].
      intros [t|c] wa wb _; simpl.
      * intros [= <-]. apply frame_refl.
      * apply IH.
Qed.

(** X1.  [update_start_index] and [update_end_index] rewrite the cached
    indices only: when they return, the heap has the same size, every
    object has its label, parent, elements and antecedent attributes as
    before, and nothing was printed. *)
Theorem update_index_frame (s : ref) (w w' : world) :
  Span.update_start_index s w = Ok (tt, w') \/
  Span.update_end_index s w = Ok (tt, w') ->
  length (heap w') = length (heap w) /\
  stdout w' = stdout w /\
  forall (j : ref) (o : SpanObj),
    heap w !! j = Some o ->
    exists o', heap w' !! j = Some o' /\ same_but_indices o o'.
Proof.
  intros H.
  assert (Hf : frame w w').
  { destruct H as [H|H].
    - by apply update_start_index_rec_frame in H.
    - by apply update_end_index_rec_frame in H. }
  split; [by apply frame_length|]. split; [symmetry; apply Hf|].
  intros j o. by apply frame_lookup.
Qed.

Lemma update_index_frame_witness :
  length (heap two_token_world) = length (heap two_token_world) /\
  stdout two_token_world = stdout two_token_world /\
  forall (j : ref) (o : SpanObj),
    heap two_token_world !! j = Some o ->
    exists o', heap two_token_world !! j = Some o' /\ same_but_indices o o'.
Proof.
  apply (update_index_frame 0%nat two_token_world two_token_world).
  left. vm_compute. reflexivity.
Defined.

(** ** What the structural mutators do to the heap *)

Lemma pointwise_trans (F G : ref -> SpanObj -> SpanObj) (w1 w2 w3 : world) :
  pointwise F w1 w2 -> pointwise G w2 w3 ->
  pointwise (fun j o => G j (F j o)) w1 w3.
Proof.
  intros [E1 H1] [E2 H2]. split; [congruence|].
  intros j. rewrite H2, H1. by destruct (heap w1 !! j).
Qed.

Lemma modify_obj_pointwise (s : ref) (f : SpanObj -> SpanObj) (w w' : world)
                           (u : unit) :
  modify_obj s f w = Ok (u, w') ->
  pointwise (fun j o => if decide (j = s) then f o else o) w w'.
Proof.
  intros H. apply modify_obj_ok in H as (o & Ho & ->). split; [done|].
  intros j. simpl. destruct (decide (j = s)) as [->|Hne].
  - rewrite list_lookup_insert_eq by (by eapply lookup_lt_Some).
    by rewrite Ho.
  - rewrite list_lookup_insert_ne by done.
    unfold ref in *. destruct (heap w !! j); reflexivity.
Qed.

Lemma parent_step_pointwise (s : ref) (e : elem) (w w' : world) (u : unit) :
  match e with
  | ESpan c => Span.set_parent c (Some s)
  | ETok _ => ret tt
  end w = Ok (u, w') ->
  pointwise (with_parent s e) w w'.
Proof.
  destruct e as [t|c]; simpl.
  - intros [= _ <-]. split; [done|]. intros j. by destruct (heap w !! j).
  - intros H. apply modify_obj_pointwise in H as [E H]. split; [done|].
    intros j. rewrite H. destruct (heap w !! j); simpl; [|done].
    repeat case_decide; congruence.
Qed.

Lemma frame_pointwise (F : ref -> SpanObj -> SpanObj) (w w1 w' : world) :
  pointwise F w w1 -> frame w1 w' ->
  stdout w' = stdout w /\
  length (heap w') = length (heap w) /\
  forall j o, heap w !! j = Some o ->
              exists o', heap w' !! j = Some o' /\ same_but_indices (F j o) o'.
Proof.
  intros [E1 H1] Hf. unfold ref in *.
  split; [destruct Hf; congruence|]. split.
  - rewrite (frame_length _ _ Hf).
    apply Nat.le_antisymm.
    + destruct (decide (length (heap w1) <= length (heap w))%nat); [done|].
      assert (is_Some (heap w1 !! length (heap w))) as [x Hx]
        by (apply lookup_lt_is_Some; lia).
      rewrite H1 in Hx. rewrite (proj2 (lookup_ge_None _ _)) in Hx by lia.
      discriminate.
    + destruct (decide (length (heap w) <= length (heap w1))%nat); [done|].
      assert (is_Some (heap w !! length (heap w1))) as [x Hx]
        by (apply lookup_lt_is_Some; lia).
      specialize (H1 (length (heap w1))). rewrite Hx in H1. simpl in H1.
      rewrite (proj2 (lookup_ge_None _ _)) in H1 by lia. discriminate.
  - intros j o Ho. apply (frame_lookup w1 w' j); [done|].
    rewrite H1, Ho. reflexivity.
Qed.

Lemma update_start_index_frame (s : ref) (w w' : world) (u : unit) :
  Span.update_start_index s w = Ok (u, w') -> frame w w'.
Proof. destruct u. apply update_start_index_rec_frame. Qed.

Lemma update_end_index_frame (s : ref) (w w' : world) (u : unit) :
  Span.update_end_index s w = Ok (u, w') -> frame w w'.
Proof. destruct u. apply update_end_index_rec_frame. Qed.

(** The elementary steps of [append_element], without the index updates. *)
Lemma append_element_steps (s : ref) (e : elem) (w w' : world) (o : SpanObj) :
  heap w !! s = Some o ->
  Span.append_element s e w = Ok (tt, w') ->
  exists w1,
    pointwise (with_element (fun es => es ++ [e]) s e) w w1 /\ frame w1 w'.
Proof.
  intros Ho H. unfold Span.append_element in H.
  apply bind_ok in H as (o0 & w0 & Hg & H).
  apply get_obj_ok in Hg as [Ho0 ->].
  assert (o0 = o) as -> by congruence.
  destruct (elems o) as [|e0 es] eqn:He.
  - apply bind_ok in H as (u1 & w1 & Hp1 & H).
    apply parent_step_pointwise in Hp1.
    apply bind_ok in H as (u2 & w2 & Hse & H).
    apply bind_ok in H as (u3 & w3 & Hu1 & Hu2).
    apply update_start_index_frame in Hu1, Hu2.
    unfold Span.set_elements in Hse.
    apply bind_ok in Hse as (u4 & w4 & Hm1 & Hse).
    apply modify_obj_pointwise in Hm1.
    apply bind_ok in Hse as (u5 & w5 & Hfe & Hse).
    cbn [for_each] in Hfe.
    apply bind_ok in Hfe as (u6 & w6 & Hb & Hr).
    injection Hr as _ <-.
    apply bind_ok in Hb as (u7 & w7 & Hp2 & Hm2).
    apply parent_step_pointwise in Hp2.
    apply modify_obj_pointwise in Hm2.
    apply bind_ok in Hse as (u8 & w8 & Hu3 & Hu4).
    apply update_start_index_frame in Hu3.
    destruct u8. apply update_end_index_frame in Hu4.
    exists w6. split.
    + pose proof (pointwise_trans _ _ _ _ _
                    (pointwise_trans _ _ _ _ _
                       (pointwise_trans _ _ _ _ _ Hp1 Hm1) Hp2) Hm2) as [E HP].
      split; [done|]. intros j. rewrite HP.
      destruct (heap w !! j) as [oj|] eqn:Hj; [|done]. simpl. f_equal.
      unfold with_element, with_parent.
      destruct (decide (j = s)) as [->|Hne].
      * assert (oj = o) as -> by congruence.
        destruct e as [t|c]; simpl; [by rewrite He|].
        destruct (decide (c = s)); simpl; by rewrite He.
      * destruct e as [t|c]; [done|].
        destruct (decide (c = j)); [|done]. by destruct oj.
    + eapply frame_trans; [exact Hu3|].
      eapply frame_trans; [exact Hu4|].
      eapply frame_trans; [exact Hu1|exact Hu2].
  - apply bind_ok in H as (u1 & w1 & Hp1 & H).
    apply parent_step_pointwise in Hp1.
    apply bind_ok in H as (u2 & w2 & Hm & Hu).
    apply modify_obj_pointwise in Hm.
    apply update_end_index_frame in Hu.
    exists w2. split; [|done].
    pose proof (pointwise_trans _ _ _ _ _ Hp1 Hm) as [E HP].
    split; [done|]. intros j. rewrite HP.
    destruct (heap w !! j) as [oj|] eqn:Hj; [|done]. simpl. f_equal.
Qed.

(** X2.  When [append_element] returns, the span has the new element as
    its last element and a span element has the span as its parent; every
    other object keeps its label, parent and elements, the heap has its
    size and nothing was printed.  Only cached indices may differ
    otherwise. *)
Theorem append_element_post (s : ref) (e : elem) (w w' : world) (o : SpanObj) :
  heap w !! s = Some o ->
  Span.append_element s e w = Ok (tt, w') ->
  stdout w' = stdout w /\
  length (heap w') = length (heap w) /\
  forall j oj,
    heap w !! j = Some oj ->
    exists oj',
      heap w' !! j = Some oj' /\
      same_but_indices (with_element (fun es => es ++ [e]) s e j oj) oj'.
Proof.
  intros Ho H.
  destruct (append_element_steps s e w w' o Ho H) as (w1 & HP & Hf).
  by apply (frame_pointwise _ w w1 w').
Qed.

Lemma append_element_post_witness :
  stdout appended_world = stdout two_token_world /\
  length (heap appended_world) = length (heap two_token_world) /\
  forall j oj,
    heap two_token_world !! j = Some oj ->
    exists oj',
      heap appended_world !! j = Some oj' /\
      same_but_indices
        (with_element (fun es => es ++ [ETok third_token]) 0%nat
                      (ETok third_token) j oj) oj'.
Proof.
  eapply (append_element_post 0%nat (ETok third_token) two_token_world
            appended_world).
  - vm_compute. reflexivity.
  - vm_compute. reflexivity.
Defined.

Lemma list_insert_at_end {A} (l : list A) (x : A) :
  list_insert l (Z.of_nat (length l)) x = l ++ [x].
Proof.
  unfold list_insert. destruct (Z.ltb_spec (Z.of_nat (length l)) 0); [lia|].
  rewrite Z.min_id, Nat2Z.id. by rewrite take_ge, drop_ge by lia.
Qed.

Lemma with_parent_elems (s : ref) (e : elem) (j : ref) (o : SpanObj) :
  elems (with_parent s e j o) = elems o.
Proof.
  unfold with_parent. destruct e as [t|c]; [done|]. by case_decide.
Qed.

(** X3.  When [insert_element] returns for an index that is not greater
    than the number of elements, the span holds the new element at the
    place [list.insert] gives it (a negative index counts from the end, the
    length itself appends), a span element has the span as its parent,
    and every other object keeps its label, parent and elements. *)
Theorem insert_element_post (s : ref) (index : Z) (e : elem) (w w' : world)
                            (o : SpanObj) :
  heap w !! s = Some o ->
  index <= Z.of_nat (length (elems o)) ->
  Span.insert_element s index e w = Ok (tt, w') ->
  stdout w' = stdout w /\
  length (heap w') = length (heap w) /\
  forall j oj,
    heap w !! j = Some oj ->
    exists oj',
      heap w' !! j = Some oj' /\
      same_but_indices
        (with_element (fun es => list_insert es index e) s e j oj) oj'.
Proof.
  intros Ho Hi H. unfold Span.insert_element in H.
  apply bind_ok in H as (o0 & w0 & Hg & H).
  apply get_obj_ok in Hg as [Ho0 ->].
  assert (o0 = o) as -> by congruence.
  destruct (Z.ltb_spec index (Z.of_nat (length (elems o)))) as [Hlt|Hge].
  - apply bind_ok in H as (u1 & w1 & Hp & H).
    apply parent_step_pointwise in Hp.
    apply bind_ok in H as (u2 & w2 & Hm & H).
    apply modify_obj_pointwise in Hm.
    apply bind_ok in H as (u3 & w3 & Hu1 & Hu2).
    apply update_start_index_frame in Hu1.
    apply update_end_index_frame in Hu2.
    apply (frame_pointwise _ w w2 w'); [|by eapply frame_trans].
    pose proof (pointwise_trans _ _ _ _ _ Hp Hm) as [E HP].
    split; [done|]. intros j. rewrite HP.
    unfold ref in *. destruct (heap w !! j) as [oj|]; reflexivity.
  - assert (index = Z.of_nat (length (elems o))) as -> by lia.
    rewrite Z.eqb_refl in H.
    apply bind_ok in H as ([] & w1 & Ha & H).
    apply bind_ok in H as (u3 & w3 & Hu1 & Hu2).
    apply update_start_index_frame in Hu1.
    apply update_end_index_frame in Hu2.
    destruct (append_element_steps s e w w1 o Ho Ha) as (wp & HP & Hf).
    apply (frame_pointwise _ w wp w').
    + destruct HP as [E HP]. split; [done|]. intros j. rewrite HP.
      unfold ref in *. destruct (heap w !! j) as [oj|] eqn:Hj; [|done].
      cbn [fmap option_fmap option_map]. f_equal. unfold with_element.
      cbv zeta. case_decide as Hjs; [|reflexivity]. subst j.
      assert (oj = o) as -> by congruence.
      by rewrite with_parent_elems, list_insert_at_end.
    + eapply frame_trans; [exact Hf|]. by eapply frame_trans.
Qed.

Lemma insert_element_post_witness :
  stdout inserted_world = stdout two_token_world /\
  length (heap inserted_world) = length (heap two_token_world) /\
  forall j oj,
    heap two_token_world !! j = Some oj ->
    exists oj',
      heap inserted_world !! j = Some oj' /\
      same_but_indices
        (with_element (fun es => list_insert es (-1) (ETok third_token))
                      0%nat (ETok third_token) j oj) oj'.
Proof.
  eapply (insert_element_post 0%nat (-1) (ETok third_token) two_token_world
            inserted_world).
  - vm_compute. reflexivity.
  - vm_compute. discriminate.
  - vm_compute. reflexivity.
Defined.

(** ** The length of a span *)

Lemma len_rec_tokens (fuel : nat) (h : list SpanObj) (s : ref) :
  Span.len_rec fuel h s =
  (ts <~ Span.get_tokens_rec fuel h s ;; Ok (Z.of_nat (length ts))).
Proof.
  revert s. induction fuel as [|fuel IH]; intros s; [reflexivity|].
  cbn [Span.len_rec Span.get_tokens_rec].
  destruct (h !! s) as [o|]; [|reflexivity].
  change (Ok (Z.of_nat (length ?ts))) with (Ok (0 + Z.of_nat (length ts))).
  generalize 0. induction (elems o) as [|[t|c] r IHr]; intros l.
  - simpl. f_equal. lia.
  - cbn [Span.collect]. rewrite IHr.
    destruct (Span.collect _ r) as [ts|e]; [|reflexivity].
    simpl. f_equal. lia.
  - cbn [Span.collect]. rewrite IH.
    destruct (Span.get_tokens_rec fuel h c) as [cs|e]; [|reflexivity].
    cbn [rbind]. rewrite IHr.
    destruct (Span.collect _ r) as [ts|e]; [|reflexivity].
    simpl. rewrite length_app. f_equal. lia.
Qed.

(** X4.  [len(span)] is the number of tokens that [get_tokens] returns,
    and it fails exactly when [get_tokens] fails, with the same
    exception. *)
Theorem len_counts_tokens (s : ref) (w : world) :
  Span.len s w =
  match Span.get_tokens s w with
  | Ok (tokens, w') => Ok (Z.of_nat (length tokens), w')
  | Raise e => Raise e
  end.
Proof.
  unfold Span.len, Span.get_tokens, read_heap, lift.
  rewrite len_rec_tokens.
  by destruct (Span.get_tokens_rec _ _ _).
Qed.

(** ** Containment is an order *)

Lemma get_start_index_pure (s : ref) (w w' : world) (v : pyidx) :
  Span.get_start_index true s w = Ok (v, w') -> w' = w.
Proof.
  unfold Span.get_start_index. intros H.
  apply bind_ok in H as (o & w1 & Hg & H). apply get_obj_ok in Hg as [_ ->].
  destruct (elems o); [by injection H as _ <-|].
  apply bind_ok in H as (ts & w2 & Ht & H). apply get_tokens_ok in Ht as [_ ->].
  unfold lift in H. destruct (Span.first_word_index ts); [|discriminate].
  by injection H as _ <-.
Qed.

Lemma get_end_index_pure (s : ref) (w w' : world) (v : pyidx) :
  Span.get_end_index true s w = Ok (v, w') -> w' = w.
Proof.
  unfold Span.get_end_index. intros H.
  apply bind_ok in H as (o & w1 & Hg & H). apply get_obj_ok in Hg as [_ ->].
  destruct (elems o); [by injection H as _ <-|].
  apply bind_ok in H as (ts & w2 & Ht & H). apply get_tokens_ok in Ht as [_ ->].
  unfold lift in H. destruct (Span.first_word_index (rev ts)); [|discriminate].
  by injection H as _ <-.
Qed.

Lemma includes_span_true (self span : ref) (w w' : world) :
  Span.includes_span self span w = Ok (true, w') ->
  w' = w /\
  exists a1 b1 a2 b2,
    Span.get_start_index true self w = Ok (IInt a1, w) /\
    Span.get_end_index true self w = Ok (IInt b1, w) /\
    Span.get_start_index true span w = Ok (IInt a2, w) /\
    Span.get_end_index true span w = Ok (IInt b2, w) /\
    a1 <= a2 /\ b2 <= b1.
Proof.
  unfold Span.includes_span. intros H.
  apply bind_ok in H as (s1 & w1 & H1 & H).
  pose proof (get_start_index_pure _ _ _ _ H1) as ->.
  apply bind_ok in H as (e1 & w2 & H2 & H).
  pose proof (get_end_index_pure _ _ _ _ H2) as ->.
  apply bind_ok in H as (s2 & w3 & H3 & H).
  pose proof (get_start_index_pure _ _ _ _ H3) as ->.
  apply bind_ok in H as (e2 & w4 & H4 & H).
  pose proof (get_end_index_pure _ _ _ _ H4) as ->.
  unfold lift in H. rewrite included_cases in H.
  destruct s1 as [|a1|], s2 as [|a2|]; try discriminate.
  destruct (Z.leb_spec a1 a2); [|discriminate].
  destruct e1 as [|b1|], e2 as [|b2|]; try discriminate.
  injection H as Hge <-. split; [done|].
  exists a1, b1, a2, b2. repeat split; try done.
  apply Z.geb_le in Hge. lia.
Qed.

(** X5.  On spans with present indices [includes_span] is reflexive and
    transitive, and two spans that include each other have the same
    indices without punctuation. *)
Theorem includes_span_order (w : world) :
  (forall s a b,
     Span.get_start_index true s w = Ok (IInt a, w) ->
     Span.get_end_index true s w = Ok (IInt b, w) ->
     Span.includes_span s s w = Ok (true, w)) /\
  (forall s1 s2 s3,
     Span.includes_span s1 s2 w = Ok (true, w) ->
     Span.includes_span s2 s3 w = Ok (true, w) ->
     Span.includes_span s1 s3 w = Ok (true, w)) /\
  (forall s1 s2,
     Span.includes_span s1 s2 w = Ok (true, w) ->
     Span.includes_span s2 s1 w = Ok (true, w) ->
     Span.get_start_index true s1 w = Span.get_start_index true s2 w /\
     Span.get_end_index true s1 w = Span.get_end_index true s2 w).
Proof.
  split; [|split].
  - intros s a b Ha Hb.
    rewrite (Span_includes_span_eq w s s (IInt a) (IInt b) (IInt a) (IInt b))
      by done.
    rewrite included_cases, Z.leb_refl.
    by rewrite (proj2 (Z.geb_le b b)) by lia.
  - intros s1 s2 s3 H12 H23.
    apply includes_span_true in H12
      as (_ & a1 & b1 & a2 & b2 & Hs1 & He1 & Hs2 & He2 & Ha & Hb).
    apply includes_span_true in H23
      as (_ & a2' & b2' & a3 & b3 & Hs2' & He2' & Hs3 & He3 & Ha' & Hb').
    rewrite Hs2 in Hs2'. rewrite He2 in He2'.
    injection Hs2' as <-. injection He2' as <-.
    rewrite (Span_includes_span_eq w s1 s3 (IInt a1) (IInt b1) (IInt a3) (IInt b3))
      by done.
    rewrite included_cases.
    rewrite (proj2 (Z.leb_le a1 a3)) by lia.
    by rewrite (proj2 (Z.geb_le b1 b3)) by lia.
  - intros s1 s2 H12 H21.
    apply includes_span_true in H12
      as (_ & a1 & b1 & a2 & b2 & Hs1 & He1 & Hs2 & He2 & Ha & Hb).
    apply includes_span_true in H21
      as (_ & a2' & b2' & a1' & b1' & Hs2' & He2' & Hs1' & He1' & Ha' & Hb').
    rewrite Hs2 in Hs2'. rewrite He2 in He2'.
    rewrite Hs1 in Hs1'. rewrite He1 in He1'.
    injection Hs2' as <-. injection He2' as <-.
    injection Hs1' as <-. injection He1' as <-.
    rewrite Hs1, Hs2, He1, He2.
    assert (a1 = a2) as -> by lia. assert (b1 = b2) as -> by lia. done.
Qed.

Lemma includes_span_order_witness :
  Span.includes_span 0%nat 0%nat phrase_and_comma_world
  = Ok (true, phrase_and_comma_world).
Proof.
  destruct (includes_span_order phrase_and_comma_world) as (Hr & _ & _).
  apply (Hr 0%nat 0 1); vm_compute; reflexivity.
Defined.

(** ** The distance is stable *)

Lemma get_tokens_same_elems (s : ref) (w w' : world) (tokens : list Token) :
  same_elems (heap w) (heap w') ->
  Span.get_tokens s w = Ok (tokens, w) ->
  Span.get_tokens s w' = Ok (tokens, w').
Proof.
  intros Hs H. apply get_tokens_ok in H as [H _].
  unfold Span.get_tokens, read_heap, lift, depth.
  rewrite <- (Forall2_length _ _ _ Hs).
  rewrite <- (get_tokens_rec_same_elems _ _ _ s Hs).
  unfold depth in H. by rewrite H.
Qed.

Lemma get_obj_same_elems (s : ref) (w w' : world) (o : SpanObj) :
  same_elems (heap w) (heap w') ->
  heap w !! s = Some o ->
  exists o', heap w' !! s = Some o' /\ elems o = elems o'.
Proof.
  intros Hs Ho.
  destruct (Forall2_lookup_l _ _ _ _ _ Hs Ho) as (o' & Ho' & He). eauto.
Qed.

Lemma get_start_index_same_elems (s : ref) (w w' : world) (v : pyidx) :
  same_elems (heap w) (heap w') ->
  Span.get_start_index true s w = Ok (v, w) ->
  Span.get_start_index true s w' = Ok (v, w').
Proof.
  intros Hs H. unfold Span.get_start_index in *.
  apply bind_ok in H as (o & w1 & Hg & H). apply get_obj_ok in Hg as [Ho ->].
  destruct (get_obj_same_elems s w w' o Hs Ho) as (o' & Ho' & He).
  unfold bind at 1. unfold get_obj. rewrite Ho'. rewrite <- He.
  destruct (elems o); [by injection H as <-|].
  apply bind_ok in H as (ts & w2 & Ht & H).
  pose proof (get_tokens_ok _ _ _ _ Ht) as [_ ->].
  unfold bind. rewrite (get_tokens_same_elems s w w' ts Hs Ht).
  unfold lift in *. destruct (Span.first_word_index ts); [|discriminate].
  by injection H as <-.
Qed.

Lemma get_end_index_same_elems (s : ref) (w w' : world) (v : pyidx) :
  same_elems (heap w) (heap w') ->
  Span.get_end_index true s w = Ok (v, w) ->
  Span.get_end_index true s w' = Ok (v, w').
Proof.
  intros Hs H. unfold Span.get_end_index in *.
  apply bind_ok in H as (o & w1 & Hg & H). apply get_obj_ok in Hg as [Ho ->].
  destruct (get_obj_same_elems s w w' o Hs Ho) as (o' & Ho' & He).
  unfold bind at 1. unfold get_obj. rewrite Ho'. rewrite <- He.
  destruct (elems o); [by injection H as <-|].
  apply bind_ok in H as (ts & w2 & Ht & H).
  pose proof (get_tokens_ok _ _ _ _ Ht) as [_ ->].
  unfold bind. rewrite (get_tokens_same_elems s w w' ts Hs Ht).
  unfold lift in *. destruct (Span.first_word_index (rev ts)); [|discriminate].
  by injection H as <-.
Qed.

Lemma store_distance_same_elems (w : world) (self : ref) (o : SpanObj) (n : Z) :
  heap w !! self = Some o ->
  same_elems (heap w) (<[self := set_distance_field n o]> (heap w)).
Proof.
  intros Ho. unfold same_elems.
  rewrite <- (list_insert_id (heap w) self o Ho) at 1.
  apply Forall2_insert; [|done].
  apply Forall_Forall2_diag, Forall_forall. done.
Qed.

Lemma compute_distance_ok (self m : ref) (sentence : list Token)
                          (w w' : world) (r : option Z) :
  Antecedent.compute_distance self m sentence w = Ok (r, w') ->
  exists a_end m_start toks o,
    Span.get_end_index true self w = Ok (a_end, w) /\
    Span.get_start_index true m w = Ok (m_start, w) /\
    Antecedent.between a_end m_start sentence = Ok toks /\
    heap w !! self = Some o /\
    r = Some (Z.of_nat (length toks)) /\
    w' = mkWorld (<[self := set_distance_field (Z.of_nat (length toks)) o]> (heap w))
                 (stdout w).
Proof.
  unfold Antecedent.compute_distance. intros H.
  apply bind_ok in H as (a_end & w1 & Ha & H).
  pose proof (get_end_index_pure _ _ _ _ Ha) as ->.
  apply bind_ok in H as (m_start & w2 & Hm & H).
  pose proof (get_start_index_pure _ _ _ _ Hm) as ->.
  apply bind_ok in H as (toks & w3 & Hb & H).
  unfold lift in Hb.
  destruct (Antecedent.between a_end m_start sentence) as [toks'|] eqn:Hbt;
    [|discriminate].
  injection Hb as <- <-.
  apply bind_ok in H as (u & w4 & Hmod & H).
  apply modify_obj_ok in Hmod as (o & Ho & ->).
  injection H as <- <-.
  exists a_end, m_start, toks', o. done.
Qed.

(** X6.  Asking for the distance a second time gives the same answer and
    changes nothing any more, whether the first answer was stored, was
    [0] and is computed again, or was [None]. *)
Theorem get_distance_idempotent (self : ref) (sentence : list Token)
                                (w w' : world) (r : option Z) :
  Antecedent.get_distance self sentence w = Ok (r, w') ->
  Antecedent.get_distance self sentence w' = Ok (r, w').
Proof.
  intros H. pose proof H as H0. unfold Antecedent.get_distance in H.
  apply bind_ok in H as (o & w1 & Hg & H). apply get_obj_ok in Hg as [Ho ->].
  destruct (movElem o) as [m|] eqn:Hm; [|by injection H as <- <-].
  assert (Hcached : forall d, distance o = Some d -> d <> 0 ->
                              Antecedent.get_distance self sentence w' = Ok (r, w')).
  { intros d Hd Hne. rewrite Hd in H.
    destruct (Z.eqb_spec d 0); [done|]. by injection H as <- <-. }
  assert (Hcomp : Antecedent.compute_distance self m sentence w = Ok (r, w') ->
                  Antecedent.get_distance self sentence w' = Ok (r, w')).
  { intros Hc.
    apply compute_distance_ok in Hc
      as (a_end & m_start & toks & o1 & Ha & Hs & Hb & Ho1 & -> & ->).
    assert (o1 = o) as -> by congruence.
    set (n := Z.of_nat (length toks)).
    set (w' := mkWorld (<[self := set_distance_field n o]> (heap w)) (stdout w)).
    assert (Hse : same_elems (heap w) (heap w'))
      by (by apply store_distance_same_elems).
    assert (Ho' : heap w' !! self = Some (set_distance_field n o)).
    { simpl. apply list_lookup_insert_eq. by eapply lookup_lt_Some. }
    unfold Antecedent.get_distance, bind, get_obj. rewrite Ho'. simpl.
    rewrite Hm. destruct (Z.eqb_spec n 0) as [Hn|Hn]; [|reflexivity].
    unfold Antecedent.compute_distance, bind.
    rewrite (get_end_index_same_elems self w w' a_end Hse Ha).
    rewrite (get_start_index_same_elems m w w' m_start Hse Hs).
    unfold lift. rewrite Hb. fold n. unfold modify_obj, ret. rewrite Ho'.
    subst w'. simpl. rewrite list_insert_insert_eq. by destruct o. }
  destruct (distance o) as [d|] eqn:Hd.
  - destruct (Z.eqb_spec d 0) as [->|Hne]; [by apply Hcomp|].
    by apply (Hcached d).
  - by apply Hcomp.
Qed.

Lemma get_distance_idempotent_witness :
  Antecedent.get_distance 0%nat five_tokens distance_world
  = Ok (Some 2, distance_world).
Proof.
  apply (get_distance_idempotent 0%nat five_tokens distance_world).
  vm_compute. reflexivity.
Defined.

(** ** Sentences without annotation *)

Lemma decode_tokens_unannotated (annoname : string) (sentence : list Token)
                                (spans : list ref) (w : world) :
  Forall (fun t => attr_get t annoname "O" = "O" \/
                   attr_get t annoname "O" = "_") sentence ->
  decode_tokens annoname sentence (spans, []) w = Ok ((spans, []), w).
Proof.
  induction 1 as [|t r Ht _ IH]; [reflexivity|].
  cbn [decode_tokens]. unfold bind, decode_token.
  destruct Ht as [-> | ->]; simpl; exact IH.
Qed.

(** X7.  A sentence in which no token is annotated (every token has ["O"]
    or ["_"] in the column, or no such attribute) decodes to the empty
    list of spans, without an exception and without touching the heap;
    this includes the empty sentence. *)
Theorem decode_unannotated (annoname : string) (sentence : list Token)
                           (w : world) :
  Forall (fun t => attr_get t annoname "O" = "O" \/
                   attr_get t annoname "O" = "_") sentence ->
  span_from_BIO_annotation sentence annoname w = Ok ([], w).
Proof.
  intros H. unfold span_from_BIO_annotation, bind.
  by rewrite (decode_tokens_unannotated annoname sentence [] w H).
Qed.

Lemma decode_unannotated_witness :
  span_from_BIO_annotation [tagged "1" "O"; mk_token "2" "b" "NN"; tagged "3" "_"]
                           "chunks" empty_world = Ok ([], empty_world).
Proof.
  apply decode_unannotated.
  constructor; [left; vm_compute; reflexivity|].
  constructor; [left; vm_compute; reflexivity|].
  constructor; [right; vm_compute; reflexivity|].
  constructor.
Defined.

Lemma zip_with_map_r {A B C} (f : A -> B -> C) (g : A -> B) (l : list A) :
  zip_with f l (map g l) = map (fun x => f x (g x)) l.
Proof. induction l as [|x r IH]; simpl; [done|]. by rewrite IH. Qed.

(** X8.  Encoding an empty list of spans writes ["O"] into the column of
    every token and changes nothing else; decoding the result gives the
    empty list again.  The round trip of the empty forest holds for every
    sentence. *)
Theorem round_trip_empty_forest (sentence : list Token) (annoname : string)
                                (w : world) :
  span_to_BIO_annotation sentence [] annoname w =
    Ok (map (fun tok => <[annoname := "O"]> tok) sentence, w) /\
  span_from_BIO_annotation (map (fun tok => <[annoname := "O"]> tok) sentence)
                           annoname w = Ok ([], w).
Proof.
  split.
  - unfold span_to_BIO_annotation, bind. cbn [annotate_objects]. unfold ret.
    do 2 f_equal. rewrite map_map. cbn [String.eqb].
    by rewrite zip_with_map_r.
  - apply decode_unannotated. apply Forall_forall.
    intros t Ht. apply list_elem_of_fmap in Ht as (tok & -> & _).
    left. unfold attr_get. by rewrite lookup_insert_eq.
Qed.

(** ** What the encoder writes *)

Lemma list_assign_length {A} (l l' : list A) (i : Z) (x : A) :
  list_assign l i x = Ok l' -> length l' = length l.
Proof.
  unfold list_assign. destruct (_ && _); [|discriminate].
  intros [= <-]. apply length_insert.
Qed.

Lemma add_tag_length (bio bio' : list string) (i : pyidx) (tag : string) :
  add_tag bio i tag = Ok bio' -> length bio' = length bio.
Proof.
  unfold add_tag. destruct i as [|z|]; try discriminate.
  destruct (list_index bio z) as [cur|]; cbn [rbind]; [|discriminate].
  apply list_assign_length.
Qed.

Lemma add_tags_length (positions : list Z) (bio bio' : list string)
                      (tag : string) :
  add_tags bio positions tag = Ok bio' -> length bio' = length bio.
Proof.
  revert bio. induction positions as [|i r IH]; intros bio; cbn [add_tags].
  - by intros [= <-].
  - destruct (add_tag bio (IInt i) tag) as [b1|] eqn:H1; cbn [rbind];
      [|discriminate]. intros H. rewrite (IH _ H). by eapply add_tag_length.
Qed.

Lemma annotate_span_length (bio bio' : list string) (span : bio_span) :
  annotate_span bio span = Ok bio' -> length bio' = length bio.
Proof.
  unfold annotate_span. destruct span as [[label st] en].
  destruct (add_tag bio st _) as [b1|] eqn:H1; cbn [rbind]; [|discriminate].
  destruct (range_of st en) as [ps|]; cbn [rbind]; [|discriminate].
  intros H. rewrite (add_tags_length _ _ _ _ H). by eapply add_tag_length.
Qed.

Lemma annotate_spans_length (spans : list bio_span) (bio bio' : list string) :
  annotate_spans bio spans = Ok bio' -> length bio' = length bio.
Proof.
  revert bio. induction spans as [|sp r IH]; intros bio; cbn [annotate_spans].
  - by intros [= <-].
  - destruct (annotate_span bio sp) as [b1|] eqn:H1; cbn [rbind];
      [|discriminate]. intros H. rewrite (IH _ H). by eapply annotate_span_length.
Qed.

Lemma annotate_objects_length (span_objs : list ref) (bio bio' : list string)
                              (w w' : world) :
  annotate_objects bio span_objs w = Ok (bio', w') ->
  length bio' = length bio.
Proof.
  revert bio w. induction span_objs as [|s r IH]; intros bio w;
    cbn [annotate_objects].
  - by intros [= <- _].
  - intros H. apply bind_ok in H as (bs & w1 & _ & H).
    apply bind_ok in H as (ordered & w2 & _ & H).
    apply bind_ok in H as (b1 & w3 & Hb & H).
    unfold lift in Hb.
    destruct (annotate_spans bio ordered) as [b1'|] eqn:Ha; [|discriminate].
    injection Hb as <- <-.
    rewrite (IH _ _ H). by eapply annotate_spans_length.
Qed.

(** X9.  When the encoder returns, the sentence has as many tokens as
    before and every token differs from the old one in the annotation
    column only, which holds a tag that is not empty. *)
Theorem span_to_BIO_annotation_frame
    (sentence : list Token) (span_objs : list ref) (annoname : string)
    (w w' : world) (annotated : list Token) :
  span_to_BIO_annotation sentence span_objs annoname w = Ok (annotated, w') ->
  length annotated = length sentence /\
  forall i tok,
    sentence !! i = Some tok ->
    exists tag, tag <> "" /\
                annotated !! i = Some (<[annoname := tag]> tok).
Proof.
  unfold span_to_BIO_annotation. intros H.
  apply bind_ok in H as (bio & w1 & Hb & H).
  injection H as <- <-.
  apply annotate_objects_length in Hb. rewrite length_map in Hb.
  split.
  - rewrite length_zip_with, length_map. lia.
  - intros i tok Hi.
    assert (is_Some (bio !! i)) as [b Hbi].
    { apply lookup_lt_is_Some. rewrite Hb. by eapply lookup_lt_Some. }
    exists (if String.eqb b "" then "O" else b). split.
    + destruct (String.eqb_spec b ""); [discriminate|done].
    + rewrite lookup_zip_with, Hi. simpl.
      rewrite list_lookup_fmap, Hbi. reflexivity.
Qed.

Lemma span_to_BIO_annotation_frame_witness :
  length (map (fun tok : Token => <["chunks" := "O"]> tok) three_words)
  = length three_words /\
  forall i tok,
    three_words !! i = Some tok ->
    exists tag, tag <> "" /\
                map (fun tok : Token => <["chunks" := "O"]> tok) three_words !! i
                = Some (<["chunks" := tag]> tok).
Proof.
  apply (span_to_BIO_annotation_frame three_words [] "chunks"
           empty_world empty_world).
  reflexivity.
Defined.

(** ** The two stack disciplines *)

(** X10.  The stack handling of the two decoders at a [B-] tag differs
    only at level 0 with more than one open span: at a deeper level, or
    with at most one open span, both give the same output list and the
    same stack. *)
Theorem B_stack_agree (i : nat) (spans span_stack : list ref) :
  (i <> 0 \/ length span_stack <= 1)%nat ->
  Span_B_stack i (spans, span_stack) = MovElem_B_stack i (spans, span_stack).
Proof.
  intros H. unfold Span_B_stack, MovElem_B_stack.
  destruct i as [|i].
  - destruct H as [H|H]; [done|].
    destruct span_stack as [|r [|r' rest]]; simpl in *; [done|done|lia].
  - destruct (last span_stack), span_stack; reflexivity.
Qed.

Lemma B_stack_agree_witness :
  Span_B_stack 0 ([], [4%nat]) = MovElem_B_stack 0 ([], [4%nat]).
Proof. apply B_stack_agree. right. simpl. lia. Defined.

(** ** Trees *)

(** Induction over a tree and the trees below it. *)
Lemma Tree_induction (P : Tree.Tree -> Prop) :
  (forall cat lbl tok cs, Forall P cs -> P (Tree.Node cat lbl tok cs)) ->
  forall t, P t.
Proof.
  intros H. fix IH 1. intros [cat lbl tok cs]. apply H.
  induction cs as [|c r IHr]; constructor; [apply IH|exact IHr].
Qed.

Lemma terminals_walk (cs : list Tree.Tree) :
  (fix walk (l : list Tree.Tree) : list Tree.Tree :=
     match l with
     | [] => []
     | c :: r => Tree.terminals c ++ walk r
     end) cs = concat (map Tree.terminals cs).
Proof. induction cs as [|c r IH]; simpl; [done|]. by rewrite IH. Qed.

(** X11.  [terminals()] never returns an empty list: a node without
    children is its own terminal, whether it carries a token or not. *)
Theorem terminals_nonempty (t : Tree.Tree) : Tree.terminals t <> [].
Proof.
  induction t as [cat lbl tok cs IH] using Tree_induction.
  destruct cs as [|c r]; [done|].
  cbn [Tree.terminals]. rewrite terminals_walk. simpl.
  apply Forall_cons in IH as [Hc _].
  destruct (Tree.terminals c); [done|discriminate].
Qed.

Lemma index_of_terminal_well_formed (n : Tree.Tree) :
  well_formed_terminal n -> exists z, Tree.index_of_terminal n = Ok (IInt z).
Proof.
  intros (tok & Ht & id & z & xpos & Hid & Hz & _).
  exists (z - 1). unfold Tree.index_of_terminal. by rewrite Ht, Hid, Hz.
Qed.

Lemma no_punct_terminals_well_formed (ts : list Tree.Tree) :
  Forall well_formed_terminal ts ->
  exists np, Tree.no_punct_terminals ts = Ok np /\
             Forall well_formed_terminal np.
Proof.
  induction 1 as [|n r Hn _ (np & IH & Hnp)]; [by exists []|].
  pose proof Hn as (tok & Ht & id & z & xpos & Hid & Hz & Hx).
  cbn [Tree.no_punct_terminals]. rewrite Ht. unfold attr. rewrite Hx, IH.
  cbn [rbind]. destruct (startswith "$" xpos); eauto.
Qed.

Lemma index_with_well_formed (pick : list Tree.Tree -> option Tree.Tree)
                             (ignore_punct : bool) (t : Tree.Tree) :
  (forall l n, pick l = Some n -> n ∈ l) ->
  (forall l, l <> [] -> is_Some (pick l)) ->
  Forall well_formed_terminal (Tree.terminals t) ->
  exists z, Tree.index_with pick ignore_punct t = Ok (IInt z).
Proof.
  intros Hin Hsome Hw. unfold Tree.index_with.
  destruct (Hsome _ (terminals_nonempty t)) as [n Hn]. rewrite Hn.
  assert (Hwn : well_formed_terminal n).
  { eapply Forall_forall; [exact Hw|]. by eapply Hin. }
  assert (Hfall : exists z,
            match Tree.token n with
            | Some _ => Tree.index_of_terminal n
            | None => Ok INone
            end = Ok (IInt z)).
  { destruct (index_of_terminal_well_formed n Hwn) as [z Hz].
    destruct Hwn as (tok & -> & _). eauto. }
  destruct ignore_punct; [|exact Hfall].
  destruct (no_punct_terminals_well_formed _ Hw) as (np & -> & Hnp).
  cbn [rbind]. destruct (pick np) as [m|] eqn:Hm; [|exact Hfall].
  assert (Hwm : well_formed_terminal m).
  { eapply Forall_forall; [exact Hnp|]. by eapply Hin. }
  destruct (index_of_terminal_well_formed m Hwm) as [z ->]. by exists z.
Qed.

(** X12.  On a tree whose terminals all carry a token with [XPOS] and an
    [ID] that [int] accepts, the index methods of [Tree] return an int for
    either setting of [ignore_punct], also when every token is
    punctuation. *)
Theorem Tree_index_present (t : Tree.Tree) (ignore_punct : bool) :
  Forall well_formed_terminal (Tree.terminals t) ->
  exists a b,
    Tree.get_start_index ignore_punct t = Ok (IInt a) /\
    Tree.get_end_index ignore_punct t = Ok (IInt b).
Proof.
  intros Hw.
  destruct (index_with_well_formed head ignore_punct t) as [a Ha]; [| |done|].
  { intros l n Hn. destruct l; [done|]. injection Hn as <-.
    apply list_elem_of_here. }
  { intros [|x l] Hl; [done|]. by exists x. }
  destruct (index_with_well_formed last ignore_punct t) as [b Hb]; [| |done|].
  { intros l n Hn. apply last_Some in Hn as [l' ->].
    apply elem_of_app. right. apply list_elem_of_here. }
  { intros l Hl. by apply last_is_Some. }
  by exists a, b.
Qed.

Lemma Tree_index_present_witness :
  exists a b,
    Tree.get_start_index true punct_tree = Ok (IInt a) /\
    Tree.get_end_index true punct_tree = Ok (IInt b).
Proof.
  apply Tree_index_present.
  constructor; [|constructor].
  exists full_stop. split; [reflexivity|].
  exists "1", 1, "$.". repeat split; vm_compute; reflexivity.
Defined.

(** X13.  [len(tree)] is the number of child nodes, not the number of
    dominated terminal nodes: the loop tests the method [is_terminal]
    itself, so every child counts as one. *)
Theorem Tree_len_children (t : Tree.Tree) :
  Tree.len t = Z.of_nat (length (Tree.children t)).
Proof.
  destruct t as [cat lbl tok cs]. cbn [Tree.len Tree.children].
  change (Z.of_nat (length cs)) with (0 + Z.of_nat (length cs)).
  generalize 0. induction cs as [|c r IH]; intros l.
  - simpl. lia.
  - unfold Tree.method_is_true in *. rewrite IH. simpl length. lia.
Qed.

(** X14.  [insert_child] succeeds for every index: it returns [True] and
    the node has one child more.  An index from the length on appends the
    node, an index of minus the length or less puts it first, and an
    index within the list puts it at that place. *)
Theorem insert_child_total (self node : Tree.Tree) (index : Z) :
  let cs := Tree.children self in
  let cs' := Tree.children (fst (Tree.insert_child self index node)) in
  snd (Tree.insert_child self index node) = true /\
  length cs' = S (length cs) /\
  (Z.of_nat (length cs) <= index -> cs' = cs ++ [node]) /\
  (index <= - Z.of_nat (length cs) -> cs' = node :: cs) /\
  (0 <= index <= Z.of_nat (length cs) ->
   cs' !! Z.to_nat index = Some node).
Proof.
  destruct self as [cat lbl tok cs]. cbn [Tree.children Tree.insert_child fst snd].
  split; [done|]. unfold list_insert. split; [|split; [|split]].
  - rewrite length_app. simpl. rewrite length_take, length_drop. lia.
  - intros H. destruct (Z.ltb_spec index 0); [lia|].
    rewrite Z.min_r by lia. rewrite Nat2Z.id.
    by rewrite take_ge, drop_ge by lia.
  - intros H. destruct (Z.ltb_spec index 0) as [Hlt|Hge].
    + rewrite Z.max_l by lia. reflexivity.
    + assert (length cs = 0%nat) as Hl by lia.
      destruct cs; [|discriminate]. simpl. by rewrite take_nil, drop_nil.
  - intros H. destruct (Z.ltb_spec index 0); [lia|].
    rewrite Z.min_l by lia.
    rewrite lookup_app_r by (rewrite length_take; lia).
    rewrite length_take. replace (_ - _)%nat with 0%nat by lia. done.
Qed.

Lemma insert_child_total_witness :
  Tree.children (fst (Tree.insert_child phrase_tree 7 punct_tree))
  = Tree.children phrase_tree ++ [punct_tree].
Proof.
  destruct (insert_child_total phrase_tree punct_tree 7) as (_ & _ & H & _).
  apply H. vm_compute. discriminate.
Defined.

(** ** More on the additive merge *)

Section AddDictMore.

Context {num : Type} (num_add : num -> num -> num).
Implicit Types (d base add : list (pykey * pyval num)) (key k : pykey).

Lemma dict_get_None key d : dict_get key d = None <-> key ∉ map fst d.
Proof.
  induction d as [|[k x] r IH]; simpl.
  - split; [intros _; apply not_elem_of_nil|done].
  - rewrite not_elem_of_cons. destruct (decide (k = key)) as [->|Hne].
    + split; [done|]. by intros [? _].
    + rewrite IH. split; [by intros ?; split|by intros [_ ?]].
Qed.

Lemma dict_set_keys key (v : pyval num) d :
  map fst (dict_set key v d) =
  if decide (key ∈ map fst d) then map fst d else map fst d ++ [key].
Proof.
  induction d as [|[k x] r IH].
  - destruct (decide (key ∈ map fst [])) as [Hin|_]; [|done].
    by apply not_elem_of_nil in Hin.
  - cbn [dict_set map fst].
    destruct (decide (k = key)) as [->|Hne]; cbn [map fst].
    + destruct (decide (key ∈ key :: map fst r)) as [_|Hn]; [done|].
      destruct Hn. apply list_elem_of_here.
    + rewrite IH.
      destruct (decide (key ∈ map fst r)) as [Hin|Hnin],
               (decide (key ∈ k :: map fst r)) as [Hin'|Hnin']; try done.
      * destruct Hnin'. by apply list_elem_of_further.
      * apply elem_of_cons in Hin' as [->|?]; done.
Qed.

Lemma add_items_keys (f : pyval num -> pyval num -> pyval num) add base :
  NoDup (map fst add) ->
  map fst (add_items f add base) =
  map fst base ++ filter (fun k => k ∉ map fst base) (map fst add).
Proof.
  revert base. induction add as [|[k v] rest IH]; intros base Hnd.
  - simpl. by rewrite app_nil_r.
  - simpl in Hnd. apply NoDup_cons in Hnd as [Hk Hnd].
    cbn [add_items map fst]. rewrite (IH _ Hnd).
    assert (Hkeys : forall x : pyval num,
               map fst (dict_set k x base) =
               if decide (k ∈ map fst base) then map fst base
               else map fst base ++ [k]) by (intros; apply dict_set_keys).
    assert (Hset : map fst match dict_get k base with
                           | Some b => dict_set k (f v b) base
                           | None => dict_set k v base
                           end =
                   if decide (k ∈ map fst base) then map fst base
                   else map fst base ++ [k]).
    { destruct (dict_get k base); apply Hkeys. }
    rewrite Hset.
    destruct (decide (k ∈ map fst base)) as [Hin|Hnin].
    + rewrite filter_cons_False by (intros ?; done). done.
    + rewrite filter_cons_True by done. rewrite <- app_assoc. simpl. do 2 f_equal.
      clear -Hk. induction (map fst rest) as [|x xs IHx]; [done|].
      apply not_elem_of_cons in Hk as [Hne Hk].
      assert (Hiff : x ∉ map fst base ++ [k] <-> x ∉ map fst base).
      { rewrite elem_of_app, list_elem_of_singleton. split; [tauto|].
        intros Hn [?| ->]; done. }
      destruct (decide (x ∉ map fst base)) as [Hx|Hx].
      * rewrite (filter_cons_True _ x xs) by (by apply Hiff).
        rewrite (filter_cons_True _ x xs) by done.
        by rewrite IHx.
      * rewrite (filter_cons_False _ x xs) by (by rewrite Hiff).
        rewrite (filter_cons_False _ x xs) by done.
        by apply IHx.
Qed.

(** X15.  The keys of the merged dictionary are the keys of the base in
    their order, followed by the new keys in the order of the dictionary
    that was added; no key occurs twice. *)
Theorem add_dict_keys base add :
  NoDup (map fst add) ->
  map fst (add_dict num_add base add) =
    map fst base ++ filter (fun k => k ∉ map fst base) (map fst add) /\
  (NoDup (map fst base) -> NoDup (map fst (add_dict num_add base add))).
Proof.
  intros Hnd. unfold add_dict. rewrite (add_items_keys _ add base Hnd).
  split; [done|]. intros Hb. apply NoDup_app. split; [done|]. split.
  - intros x Hx Hf. apply list_elem_of_filter in Hf as [Hf _]. done.
  - by apply NoDup_filter.
Qed.

Lemma add_items_fresh (f : pyval num -> pyval num -> pyval num) add base :
  NoDup (map fst add) ->
  (forall k, k ∈ map fst add -> k ∉ map fst base) ->
  add_items f add base = base ++ add.
Proof.
  revert base. induction add as [|[k v] rest IH]; intros base Hnd Hfresh.
  - simpl. by rewrite app_nil_r.
  - simpl in Hnd. apply NoDup_cons in Hnd as [Hk Hnd].
    cbn [add_items].
    assert (Hkb : k ∉ map fst base) by (apply Hfresh; apply list_elem_of_here).
    rewrite (proj2 (dict_get_None k base) Hkb).
    assert (Hset : dict_set k v base = base ++ [(k, v)]).
    { clear -Hkb. induction base as [|[k' x] r IHb]; [done|].
      simpl in *. apply not_elem_of_cons in Hkb as [Hne Hr].
      rewrite decide_False by done. by rewrite IHb. }
    rewrite Hset, IH; [by rewrite <- app_assoc|done|].
    intros k' Hk'. rewrite map_app, elem_of_app. simpl.
    rewrite list_elem_of_singleton. intros [Hb| ->]; [|done].
    eapply Hfresh; [|exact Hb]. by apply list_elem_of_further.
Qed.

(** X16.  Adding a dictionary to an empty base, or to a base that shares
    no key with it, appends its items unchanged and in their order; in
    particular [add_dict({}, d)] is a copy of [d]. *)
Theorem add_dict_disjoint base add :
  NoDup (map fst add) ->
  (forall k, k ∈ map fst add -> k ∉ map fst base) ->
  add_dict num_add base add = base ++ add /\
  add_dict num_add [] add = add.
Proof.
  intros Hnd Hfresh. unfold add_dict. split.
  - by apply add_items_fresh.
  - rewrite add_items_fresh; [done|done|]. intros k _. apply not_elem_of_nil.
Qed.

Lemma numeric_lookup d key (v : pyval num) :
  numeric d -> dict_get key d = Some v -> exists n, v = VNum n.
Proof.
  intros Hn. induction Hn as [|[k x] r [n Hx] _ IH]; simpl; [done|].
  simpl in Hx. destruct (decide (k = key)); [|done].
  intros [= <-]. eauto.
Qed.

Lemma add_dict_lookup base add key :
  NoDup (map fst add) ->
  dict_get key (add_dict num_add base add) =
  match dict_get key add with
  | None => dict_get key base
  | Some val =>
      match dict_get key base with
      | None => Some val
      | Some b => Some (add_value num_add val b)
      end
  end.
Proof. intros Hnd. unfold add_dict. by apply add_items_lookup. Qed.

(** X17.  Dictionaries of counts can be merged in any order and in any
    grouping: when the addition of numbers is commutative and associative
    and all values are numbers, [add_dict(a, b)] and [add_dict(b, a)]
    hold the same value under every key, and so do
    [add_dict(add_dict(a, b), c)] and [add_dict(a, add_dict(b, c))]. *)
Theorem add_dict_counts (a b c : list (pykey * pyval num)) :
  (forall x y, num_add x y = num_add y x) ->
  (forall x y z, num_add (num_add x y) z = num_add x (num_add y z)) ->
  NoDup (map fst a) -> NoDup (map fst b) -> NoDup (map fst c) ->
  numeric a -> numeric b -> numeric c ->
  forall key,
    dict_get key (add_dict num_add a b) = dict_get key (add_dict num_add b a) /\
    dict_get key (add_dict num_add (add_dict num_add a b) c) =
    dict_get key (add_dict num_add a (add_dict num_add b c)).
Proof.
  intros Hcomm Hassoc Ha Hb Hc Na Nb Nc key.
  assert (Hbc : NoDup (map fst (add_dict num_add b c))).
  { by apply (add_dict_keys b c). }
  rewrite !add_dict_lookup by done.
  pose proof (numeric_lookup a key) as La.
  pose proof (numeric_lookup b key) as Lb.
  pose proof (numeric_lookup c key) as Lc.
  destruct (dict_get key a) as [va|], (dict_get key b) as [vb|],
           (dict_get key c) as [vc|];
    try (destruct (La va Na eq_refl) as [na ->]);
    try (destruct (Lb vb Nb eq_refl) as [nb ->]);
    try (destruct (Lc vc Nc eq_refl) as [nc ->]);
    simpl; rewrite ?Hassoc; try rewrite (Hcomm na nb); done.
Qed.

End AddDictMore.

Lemma add_dict_keys_witness :
  map fst (add_dict Z.add doc_base doc_add) =
  map fst doc_base ++ filter (fun k => k ∉ map fst doc_base) (map fst doc_add).
Proof.
  destruct (add_dict_keys Z.add doc_base doc_add) as [H _]; [|exact H].
  refine (bool_decide_unpack _ _). vm_compute. exact I.
Defined.

Lemma add_dict_disjoint_witness : add_dict Z.add [] doc_add = doc_add.
Proof.
  destruct (add_dict_disjoint Z.add [] doc_add) as [_ H]; [| |exact H].
  - refine (bool_decide_unpack _ _). vm_compute. exact I.
  - intros k _. apply not_elem_of_nil.
Defined.

Lemma add_dict_counts_witness :
  dict_get (KStr "FP")
    (add_dict Z.add [(KStr "TP", VNum 1); (KStr "FP", VNum 2)]
                    [(KStr "FP", VNum 3)]) =
  dict_get (KStr "FP")
    (add_dict Z.add [(KStr "FP", VNum 3)]
                    [(KStr "TP", VNum 1); (KStr "FP", VNum 2)]).
Proof.
  apply (add_dict_counts Z.add [(KStr "TP", VNum 1); (KStr "FP", VNum 2)]
           [(KStr "FP", VNum 3)] []).
  - intros; lia.
  - intros; lia.
  - refine (bool_decide_unpack _ _). vm_compute. exact I.
  - refine (bool_decide_unpack _ _). vm_compute. exact I.
  - constructor.
  - repeat constructor; simpl; eauto.
  - repeat constructor; simpl; eauto.
  - constructor.
Defined.

(** ** The matching loops and the counts of [evaluate_antecedents] *)

Lemma remove_first_sublist {A} (p : A -> bool) (l : list A) :
  remove_first p l `sublist_of` l.
Proof.
  induction l as [|x r IH]; simpl; [done|].
  destruct (p x); [by apply sublist_cons|by apply sublist_skip].
Qed.

Lemma remove_first_length {A} (p : A -> bool) (l : list A) (x : A) :
  x ∈ l -> p x = true -> S (length (remove_first p l)) = length l.
Proof.
  intros Hin Hp. induction l as [|y r IH]; [by apply elem_of_nil in Hin|].
  simpl. destruct (p y) eqn:Hy; [done|].
  apply elem_of_cons in Hin as [->|Hin]; [congruence|].
  simpl. by rewrite IH.
Qed.

Lemma filter_head {A} (p : A -> bool) (l : list A) (y : A) (r : list A) :
  filter (fun a => p a = true) l = y :: r -> y ∈ l /\ p y = true.
Proof.
  intros Hf.
  assert (Hy : y ∈ filter (fun a => p a = true) l)
    by (rewrite Hf; apply list_elem_of_here).
  by apply list_elem_of_filter in Hy as [? ?].
Qed.

(** X18.  One matching loop pairs gold and system antecedents one to one:
    what it leaves of either list is a sublist in the old order, as many
    gold as system antecedents are taken out, and no gold antecedent that
    is left matches a system antecedent that is left. *)
Theorem match_loop_left
    (matches : antecedent -> antecedent -> bool)
    (score : antecedent -> antecedent -> buckets -> result buckets)
    (g_antecs e_antecs g_left e_left : list antecedent)
    (eval_dict eval_dict' : buckets) :
  match_loop matches score g_antecs e_antecs eval_dict
    = Ok (g_left, e_left, eval_dict') ->
  g_left `sublist_of` g_antecs /\
  e_left `sublist_of` e_antecs /\
  (length g_left + length e_antecs = length e_left + length g_antecs)%nat /\
  forall ga ea, ga ∈ g_left -> ea ∈ e_left -> matches ga ea = false.
Proof.
  revert e_antecs g_left e_left eval_dict eval_dict'.
  induction g_antecs as [|ga r IH]; intros e g' e' ed ed'; cbn [match_loop].
  - intros [= <- <- <-]. split; [done|]. split; [done|]. split; [done|].
    intros ga ea Hga. by apply elem_of_nil in Hga.
  - destruct (filter (fun ea => matches ga ea = true) e) as [|ea0 rest] eqn:Hf.
    + destruct (match_loop matches score r e ed) as [[[gl el] e1]|] eqn:Hm;
        cbn [rbind]; [|discriminate].
      intros [= <- <- <-].
      destruct (IH _ _ _ _ _ Hm) as (Hg & He & Hlen & Hno).
      split; [by apply sublist_skip|]. split; [done|].
      split; [simpl; lia|].
      intros ga' ea Hga Hea. apply elem_of_cons in Hga as [->|Hga].
      * destruct (matches ga ea) eqn:Hp; [|done]. exfalso.
        eapply (filter_nil_not_elem_of _ e ea); [exact Hf|exact Hp|].
        eapply elem_of_sublist; [exact Hea|exact He].
      * by apply Hno.
    + destruct (score ga ea0 ed) as [e1|] eqn:Hs; cbn [rbind]; [|discriminate].
      intros Hm. destruct (IH _ _ _ _ _ Hm) as (Hg & He & Hlen & Hno).
      destruct (filter_head _ _ _ _ Hf) as [Hin Hp].
      pose proof (remove_first_length (matches ga) e ea0 Hin Hp) as Hrm.
      split; [by apply sublist_cons|].
      split; [etrans; [exact He|apply remove_first_sublist]|].
      split; [simpl; lia|done].
Qed.

Lemma match_loop_left_witness :
  [] `sublist_of` [gold_antecedent] /\
  [] `sublist_of` [system_antecedent] /\
  (length (@nil antecedent) + length [system_antecedent] =
   length (@nil antecedent) + length [gold_antecedent])%nat /\
  forall ga ea, ga ∈ @nil antecedent -> ea ∈ @nil antecedent ->
                is_IL FairEval_overlap_type ga ea = false.
Proof.
  apply (match_loop_left (is_IL FairEval_overlap_type) score_IL
           [gold_antecedent] [system_antecedent] [] [] scenario_counts
           (match match_loop (is_IL FairEval_overlap_type) score_IL
                    [gold_antecedent] [system_antecedent] scenario_counts with
            | Ok (_, _, d) => d
            | Raise _ => ∅
            end)).
  vm_compute. reflexivity.
Defined.

Lemma complete_lookup (b : bucket) (key : string) :
  complete b -> is_Some (zero_bucket !! key) -> is_Some (b !! key).
Proof.
  intros Hc Hk. apply elem_of_dom. rewrite Hc. by apply elem_of_dom.
Qed.

Lemma complete_insert (b : bucket) (key : string) (c : Z) :
  complete b -> is_Some (zero_bucket !! key) -> complete (<[key := c]> b).
Proof.
  unfold complete. intros Hc Hk. rewrite dom_insert_L, Hc.
  apply elem_of_dom in Hk. apply set_eq. intros k.
  rewrite elem_of_union, elem_of_singleton.
  split; [by intros [->|?]|by right].
Qed.

Lemma incr_complete (D : gset Z) (d : Z) (key : string) (n : Z)
                    (eval_dict : buckets) :
  complete_for D eval_dict -> d ∈ D -> is_Some (zero_bucket !! key) ->
  exists eval_dict',
    incr d key n eval_dict = Ok eval_dict' /\ complete_for D eval_dict'.
Proof.
  intros [Hdom Hall] Hd Hk.
  assert (is_Some (eval_dict !! d)) as [b Hb]
    by (apply elem_of_dom; by rewrite Hdom).
  destruct (complete_lookup b key (Hall _ _ Hb) Hk) as [c Hc].
  eexists. split; [by apply (incr_spec d key n c eval_dict b)|].
  split.
  - rewrite dom_insert_L. apply elem_of_dom_2 in Hb. rewrite <- Hdom.
    apply set_eq. intros k. rewrite elem_of_union, elem_of_singleton.
    split; [by intros [->|?]|by right].
  - intros d' b'. destruct (decide (d' = d)) as [->|Hne].
    + rewrite lookup_insert_eq. intros [= <-].
      apply complete_insert; [by apply (Hall d)|done].
    + rewrite lookup_insert_ne by done. apply Hall.
Qed.

Ltac count_key := exists 0; vm_compute; reflexivity.

Lemma score_heads_complete (D : gset Z) (group : string) (ga ea : antecedent)
                           (eval_dict : buckets) :
  group ∈ ["Correct"; "Right"; "All"] ->
  complete_for D eval_dict -> a_distance ga ∈ D ->
  exists eval_dict',
    score_heads group ga ea eval_dict = Ok eval_dict' /\
    complete_for D eval_dict'.
Proof.
  intros Hg Hc Hd. unfold score_heads. cbv zeta.
  assert (Hkeys : is_Some (zero_bucket !! ("TP_Head_" +:+ group)) /\
                  is_Some (zero_bucket !! ("FP_Head_" +:+ group)) /\
                  is_Some (zero_bucket !! ("FN_Head_" +:+ group))).
  { rewrite !elem_of_cons, elem_of_nil in Hg.
    destruct Hg as [->|[->|[->|[]]]]; repeat split; count_key. }
  destruct Hkeys as (Htp & Hfp & Hfn).
  destruct (incr_complete D (a_distance ga) _
              (Z.of_nat (size (head_tok_ids ga ∩ head_tok_ids ea)))
              eval_dict Hc Hd Htp) as (e1 & -> & H1).
  cbn [rbind].
  destruct (incr_complete D (a_distance ga) _
              (Z.of_nat (size (head_tok_ids ea ∖ head_tok_ids ga)))
              e1 H1 Hd Hfp) as (e2 & -> & H2).
  cbn [rbind].
  by apply incr_complete.
Qed.

Lemma score_TP_complete (D : gset Z) (ga ea : antecedent) (eval_dict : buckets) :
  complete_for D eval_dict -> a_distance ga ∈ D ->
  exists eval_dict',
    score_TP ga ea eval_dict = Ok eval_dict' /\ complete_for D eval_dict'.
Proof.
  intros Hc Hd. unfold score_TP.
  destruct (incr_complete D (a_distance ga) "Correct" 1 eval_dict Hc Hd)
    as (e1 & -> & H1); [count_key|].
  cbn [rbind].
  destruct (score_heads_complete D "Correct" ga ea e1) as (e2 & -> & H2);
    [rewrite !elem_of_cons; tauto|done|done|].
  cbn [rbind].
  destruct (score_heads_complete D "Right" ga ea e2) as (e3 & -> & H3);
    [rewrite !elem_of_cons; tauto|done|done|].
  cbn [rbind].
  apply score_heads_complete; [rewrite !elem_of_cons; tauto|done|done].
Qed.

Lemma score_BE_complete (overlap_type : Z * Z -> Z * Z -> option string)
                        (D : gset Z) (ga ea : antecedent) (eval_dict : buckets) :
  is_BE overlap_type ga ea = true ->
  complete_for D eval_dict -> a_distance ga ∈ D ->
  exists eval_dict',
    score_BE overlap_type ga ea eval_dict = Ok eval_dict' /\
    complete_for D eval_dict'.
Proof.
  intros Hbe Hc Hd. unfold score_BE, is_BE in *.
  destruct (overlap_type (interval ga) (interval ea)) as [ot|]; [|done].
  apply andb_true_iff in Hbe as [Hot _]. apply bool_decide_eq_true in Hot.
  assert (Hkey : is_Some (zero_bucket !! ot)).
  { rewrite !elem_of_cons, elem_of_nil in Hot.
    destruct Hot as [->|[->|[->|[]]]]; count_key. }
  destruct (incr_complete D (a_distance ga) ot 1 eval_dict Hc Hd Hkey)
    as (e1 & -> & H1).
  cbn [rbind].
  assert (Hright : exists e2,
             (if a_end ga =? a_end ea
              then e' <~ incr (a_distance ga) "BEright" 1 e1 ;;
                   score_heads "Right" ga ea e'
              else Ok e1) = Ok e2 /\ complete_for D e2).
  { destruct (a_end ga =? a_end ea); [|by eexists].
    destruct (incr_complete D (a_distance ga) "BEright" 1 e1 H1 Hd)
      as (e' & -> & H'); [count_key|].
    cbn [rbind].
    apply score_heads_complete; [rewrite !elem_of_cons; tauto|done|done]. }
  destruct Hright as (e2 & -> & H2). cbn [rbind].
  apply score_heads_complete; [rewrite !elem_of_cons; tauto|done|done].
Qed.

Lemma score_IL_complete (D : gset Z) (ga ea : antecedent) (eval_dict : buckets) :
  complete_for D eval_dict -> a_distance ga ∈ D ->
  exists eval_dict',
    score_IL ga ea eval_dict = Ok eval_dict' /\ complete_for D eval_dict'.
Proof.
  intros Hc Hd. unfold score_IL.
  destruct (incr_complete D (a_distance ga) "IL" 1 eval_dict Hc Hd)
    as (e1 & -> & H1); [count_key|].
  cbn [rbind].
  apply score_heads_complete; [rewrite !elem_of_cons; tauto|done|done].
Qed.

Lemma match_loop_complete (D : gset Z)
    (matches : antecedent -> antecedent -> bool)
    (score : antecedent -> antecedent -> buckets -> result buckets)
    (g_antecs e_antecs : list antecedent) (eval_dict : buckets) :
  (forall ga ea ed, matches ga ea = true -> a_distance ga ∈ D ->
     complete_for D ed ->
     exists ed', score ga ea ed = Ok ed' /\ complete_for D ed') ->
  (forall ga, ga ∈ g_antecs -> a_distance ga ∈ D) ->
  complete_for D eval_dict ->
  exists g_left e_left eval_dict',
    match_loop matches score g_antecs e_antecs eval_dict
      = Ok (g_left, e_left, eval_dict') /\
    complete_for D eval_dict' /\
    g_left `sublist_of` g_antecs /\ e_left `sublist_of` e_antecs.
Proof.
  intros Hscore. revert e_antecs eval_dict.
  induction g_antecs as [|ga r IH]; intros e ed Hg Hc; cbn [match_loop].
  - by exists [], e, ed.
  - assert (Hr : forall ga', ga' ∈ r -> a_distance ga' ∈ D)
      by (intros ga' ?; apply Hg; by apply list_elem_of_further).
    destruct (filter (fun ea => matches ga ea = true) e) as [|ea0 rest] eqn:Hf.
    + destruct (IH e ed Hr Hc) as (gl & el & e' & -> & Hc' & Hgl & Hel).
      cbn [rbind]. exists (ga :: gl), el, e'.
      split; [done|]. split; [done|]. split; [by apply sublist_skip|done].
    + destruct (filter_head _ _ _ _ Hf) as [Hin Hp].
      destruct (Hscore ga ea0 ed Hp) as (e1 & -> & H1);
        [apply Hg, list_elem_of_here|done|].
      cbn [rbind].
      destruct (IH (remove_first (matches ga) e) e1 Hr H1)
        as (gl & el & e' & -> & Hc' & Hgl & Hel).
      exists gl, el, e'.
      split; [done|]. split; [done|]. split; [by apply sublist_cons|].
      etrans; [exact Hel|apply remove_first_sublist].
Qed.

Lemma count_rest_complete (D : gset Z) (key head_key : string) (rest : list antecedent)
                          (eval_dict : buckets) :
  is_Some (zero_bucket !! key) -> is_Some (zero_bucket !! head_key) ->
  (forall a, a ∈ rest -> a_distance a ∈ D) ->
  complete_for D eval_dict ->
  exists eval_dict',
    count_rest key head_key rest eval_dict = Ok eval_dict' /\
    complete_for D eval_dict'.
Proof.
  intros Hk Hh. revert eval_dict.
  induction rest as [|a r IH]; intros ed Hd Hc; cbn [count_rest].
  - by exists ed.
  - assert (Ha : a_distance a ∈ D) by apply Hd, list_elem_of_here.
    destruct (incr_complete D (a_distance a) head_key
                (Z.of_nat (size (head_tok_ids a))) ed Hc Ha Hh)
      as (e1 & -> & H1).
    cbn [rbind].
    destruct (incr_complete D (a_distance a) key 1 e1 H1 Ha Hk)
      as (e2 & -> & H2).
    cbn [rbind]. apply IH; [|done].
    intros a' ?. apply Hd. by apply list_elem_of_further.
Qed.

Lemma sum_fuzzy_complete (b : bucket) :
  complete b -> exists b', sum_fuzzy b = Ok b' /\ complete b'.
Proof.
  intros Hc. unfold sum_fuzzy, count.
  destruct (complete_lookup b "BE" Hc) as [be ->]; [count_key|].
  destruct (complete_lookup b "BES" Hc) as [bes ->]; [count_key|].
  destruct (complete_lookup b "BEL" Hc) as [bel ->]; [count_key|].
  destruct (complete_lookup b "BEO" Hc) as [beo ->]; [count_key|].
  cbn [rbind]. eexists. split; [done|].
  apply complete_insert; [done|count_key].
Qed.

Lemma sum_fuzzy_all (l : list (Z * bucket)) :
  Forall (fun kb => complete (snd kb)) l ->
  exists l3,
    rmap (fun kb => b <~ sum_fuzzy (snd kb) ;; Ok (fst kb, b)) l = Ok l3 /\
    map fst l3 = map fst l /\
    Forall (fun kb => complete (snd kb)) l3.
Proof.
  induction 1 as [|[d b] r Hb _ (l3 & IH & Hfst & Hall)]; cbn [rmap fst snd].
  - by exists [].
  - cbn [snd] in Hb. destruct (sum_fuzzy_complete b Hb) as (b' & -> & Hb').
    cbn [rbind fst snd]. rewrite IH. cbn [rbind].
    exists ((d, b') :: l3). split; [done|].
    split; [by simpl; f_equal|by constructor].
Qed.

Lemma union_with_add_dom (acc b : bucket) :
  dom (union_with (fun x y => Some (x + y)) acc b) = dom acc ∪ dom b.
Proof.
  apply set_eq. intros k. rewrite elem_of_union, !elem_of_dom.
  rewrite lookup_union_with.
  destruct (acc !! k), (b !! k); simpl; rewrite !is_Some_alt; tauto.
Qed.

Lemma overall_complete (eval_dict : buckets) :
  (forall d b, eval_dict !! d = Some b -> complete b) ->
  let total : bucket :=
    map_fold (fun _ b acc => union_with (fun x y => Some (x + y)) acc b)
             ∅ eval_dict in
  complete (if decide (total = ∅) then zero_bucket else total).
Proof.
  intros Hall total.
  assert (Htotal : total = ∅ \/ complete total).
  { subst total. revert Hall.
    apply (map_fold_weak_ind
             (fun (acc : bucket) (m : buckets) =>
                (forall d b, m !! d = Some b -> complete b) ->
                acc = ∅ \/ complete acc)).
    - by left.
    - intros d b m acc Hfresh IH Hall. right.
      assert (Hb : complete b) by (apply (Hall d); by rewrite lookup_insert_eq).
      assert (Hacc : acc = ∅ \/ complete acc).
      { apply IH. intros d' b' Hd'. apply (Hall d').
        rewrite lookup_insert_ne; [done|]. intros ->. congruence. }
      unfold complete in *. rewrite union_with_add_dom, Hb.
      destruct Hacc as [-> | ->]; [rewrite dom_empty_L|].
      + apply (left_id_L ∅ (∪)).
      + apply (idemp_L (∪)). }
  destruct (decide (total = ∅)); [done|]. by destruct Htotal.
Qed.

(** X19.  With distances that are ints, [evaluate_antecedents] never
    fails on a missing key: whatever [overlap_type] answers, it returns a
    dictionary with one block for each distance of an evaluated gold or
    system antecedent and no others, and every block, the overall one
    too, has all eighteen counts. *)
Theorem evaluate_antecedents_total
    (overlap_type : Z * Z -> Z * Z -> option string)
    (gold_antecedents eval_antecedents : list antecedent) :
  let g_antecs :=
    filter (fun a => m_label a = Some "RELC" ∧ all_verbs a = false)
           gold_antecedents in
  let e_antecs :=
    filter (fun e => m_label e = Some "RELC") eval_antecedents in
  exists r,
    evaluate_antecedents overlap_type gold_antecedents eval_antecedents = Ok r /\
    complete_for (list_to_set (map a_distance g_antecs) ∪
                  list_to_set (map a_distance e_antecs)) (by_distance r) /\
    complete (overall r).
Proof.
  intros g_antecs e_antecs. unfold evaluate_antecedents.
  fold g_antecs. fold e_antecs.
  set (D := list_to_set (map a_distance g_antecs) ∪
            list_to_set (map a_distance e_antecs) : gset Z).
  assert (Hg : forall a, a ∈ g_antecs -> a_distance a ∈ D).
  { intros a Ha. apply elem_of_union_l, elem_of_list_to_set.
    by apply (list_elem_of_fmap_2 a_distance). }
  assert (He : forall a, a ∈ e_antecs -> a_distance a ∈ D).
  { intros a Ha. apply elem_of_union_r, elem_of_list_to_set.
    by apply (list_elem_of_fmap_2 a_distance). }
  assert (H0 : complete_for D (gset_to_gmap zero_bucket D)).
  { split; [apply dom_gset_to_gmap|].
    intros d b Hb. apply lookup_gset_to_gmap_Some in Hb as [_ <-]. done. }
  destruct (match_loop_complete D (is_TP overlap_type) score_TP
              g_antecs e_antecs _ (fun ga ea ed _ Hd Hc =>
                                     score_TP_complete D ga ea ed Hc Hd) Hg H0)
    as (g1 & e1 & d1 & -> & H1 & Hg1 & He1).
  cbn [rbind].
  assert (Hg1' : forall a, a ∈ g1 -> a_distance a ∈ D)
    by (intros a Ha; apply Hg; eapply elem_of_sublist; eauto).
  destruct (match_loop_complete D (is_BE overlap_type) (score_BE overlap_type)
              g1 e1 d1 (fun ga ea ed Hm Hd Hc =>
                          score_BE_complete overlap_type D ga ea ed Hm Hc Hd)
              Hg1' H1)
    as (g2 & e2 & d2 & -> & H2 & Hg2 & He2).
  cbn [rbind].
  destruct (sum_fuzzy_all (map_to_list d2)) as (l3 & -> & Hfst & Hall3).
  { apply Forall_forall. intros [d b] Hdb. apply elem_of_map_to_list in Hdb.
    by apply (proj2 H2 d). }
  cbn [rbind].
  assert (H3 : complete_for D (list_to_map l3)).
  { split.
    - rewrite dom_list_to_map_L. change (l3.*1) with (map fst l3).
      rewrite Hfst. change (map fst (map_to_list d2)) with ((map_to_list d2).*1).
      rewrite <- dom_list_to_map_L, list_to_map_to_list. apply H2.
    - intros d b Hb. apply elem_of_list_to_map_2 in Hb.
      by apply (proj1 (Forall_forall _ _) Hall3 (d, b)). }
  assert (Hg2' : forall a, a ∈ g2 -> a_distance a ∈ D)
    by (intros a Ha; apply Hg1'; eapply elem_of_sublist; eauto).
  destruct (match_loop_complete D (is_IL overlap_type) score_IL
              g2 e2 _ (fun ga ea ed _ Hd Hc =>
                         score_IL_complete D ga ea ed Hc Hd) Hg2' H3)
    as (g4 & e4 & d4 & -> & H4 & Hg4 & He4).
  cbn [rbind].
  destruct (count_rest_complete D "FN" "FN_Head_All" g4 d4) as (d5 & -> & H5);
    [count_key|count_key| |done|].
  { intros a Ha. apply Hg2'. eapply elem_of_sublist; eauto. }
  cbn [rbind].
  destruct (count_rest_complete D "FP" "FP_Head_All" e4 d5) as (d6 & -> & H6);
    [count_key|count_key| |done|].
  { intros a Ha. apply He.
    eapply elem_of_sublist; [|exact He1].
    eapply elem_of_sublist; [|exact He2].
    eapply elem_of_sublist; eauto. }
  cbn [rbind]. eexists. split; [reflexivity|]. split; [exact H6|].
  cbn [overall]. apply overall_complete. apply H6.
Qed.

Lemma filter_none {A} (P : A -> Prop) `{forall x, Decision (P x)} (l : list A) :
  (forall x, x ∈ l -> ~ P x) -> filter P l = [].
Proof.
  induction l as [|x r IH]; intros Hn; [done|].
  rewrite filter_cons_False by (apply Hn, list_elem_of_here).
  apply IH. intros y ?. apply Hn. by apply list_elem_of_further.
Qed.

(** X20.  When no gold antecedent belongs to a relative clause and has a
    head that is not a verb (an antecedent without heads has none), and
    no system antecedent belongs to a relative clause, the result of
    [evaluate_antecedents] has no block for any distance and its overall
    block is the zero block. *)
Theorem evaluate_antecedents_none
    (overlap_type : Z * Z -> Z * Z -> option string)
    (gold_antecedents eval_antecedents : list antecedent) :
  (forall a, a ∈ gold_antecedents ->
             m_label a <> Some "RELC" \/ all_verbs a = true) ->
  (forall e, e ∈ eval_antecedents -> m_label e <> Some "RELC") ->
  evaluate_antecedents overlap_type gold_antecedents eval_antecedents
    = Ok (mkEvaluation ∅ zero_bucket).
Proof.
  intros Hg He. unfold evaluate_antecedents.
  rewrite (filter_none _ gold_antecedents).
  2:{ intros a Ha [Hl Hv]. destruct (Hg a Ha); congruence. }
  rewrite (filter_none _ eval_antecedents) by done.
  reflexivity.
Qed.

Lemma evaluate_antecedents_none_witness :
  evaluate_antecedents FairEval_overlap_type
    [mkAntecedent 2 3 (Some "RELC") 5 1 []; mkAntecedent 2 3 None 0 1 [("3", "NN")]]
    [mkAntecedent 9 10 (Some "ADVC") 5 0 [("10", "NN")]]
  = Ok (mkEvaluation ∅ zero_bucket).
Proof.
  apply evaluate_antecedents_none.
  - intros a Ha. rewrite !elem_of_cons, elem_of_nil in Ha.
    destruct Ha as [->|[->|[]]]; [by right|by left].
  - intros e He. rewrite !elem_of_cons, elem_of_nil in He.
    destruct He as [->|[]]. simpl. congruence.
Defined.
